(** * VHF FreeDV framer and deframer (freedv_vhf_framing.c)

    A shallow embedding of the Type A framer [fvhff_frame_bits], the
    unique-word matcher [fvhff_match_uw], the field extractor
    [fvhff_extract_frame] and the deframer state machine
    [fvhff_deframe_bits], followed by the properties of the
    specification that concern them.

    Conventions.
    - A [uint8_t] array is a [list Z]; an array argument that may be
      [NULL] is an [option (list Z)].  Arrays passed to one call are
      taken to be pairwise disjoint.
    - Every array access is bounds checked by the model: a read or a
      write outside the array is undefined behaviour in C and is [None]
      here, and [None] propagates to the caller.
    - A C [int] is a [Z].  The counters of the deframer stay far below
      the range of [int] on every state that can be reached from
      [fvhff_create_deframer] (see [reachable_inv]), so no wrap-around
      is written for them; a store of an [int] expression into a
      [uint8_t] cell truncates, written [u8]. *)

From stdpp Require Import base option list numbers.
From Stdlib Require Import ZArith Lia.

Local Open Scope Z_scope.

(** ** Memory *)

Definition u8 (z : Z) : Z := z mod 256.

(** [a[i]] as an rvalue. *)
Definition rd (a : list Z) (i : Z) : option Z :=
  if (0 <=? i) && (i <? Z.of_nat (length a)) then a !! Z.to_nat i else None.

(** [a[i] = v]. *)
Definition wr (a : list Z) (i v : Z) : option (list Z) :=
  if (0 <=? i) && (i <? Z.of_nat (length a)) then Some (<[Z.to_nat i := v]> a)
  else None.

(** [memset(a, v, n)]. *)
Definition memset (a : list Z) (v : Z) (n : nat) : option (list Z) :=
  if (n <=? length a)%nat then Some (replicate n v ++ drop n a) else None.

(** [for (i = lo; i < hi; i++) body], the loop state threaded through
    the iterations; [for_loop n i] runs [n] iterations from index [i]. *)
Fixpoint for_loop {St : Type} (n : nat) (i : Z)
    (body : Z → St → option St) (s : St) : option St :=
  match n with
  | O => Some s
  | S n' => s' ← body i s; for_loop n' (i + 1) body s'
  end.

Definition for_range {St : Type} (lo hi : Z)
    (body : Z → St → option St) (s : St) : option St :=
  for_loop (Z.to_nat (hi - lo)) lo body s.

(** ** Constants of the Type A frame *)

(** Modelled from the spec: the header freedv_vhf_framing.h is not among
    the sources; Type A is the one supported frame type and the value
    of its tag plays no role in what follows. *)
Definition FREEDV_VHF_FRAME_A : Z := 1.

(** The UW of the VHF type A frame *)
Definition A_uw : list Z :=
  [0;1;1;0;0;1;1;1;
   1;0;1;0;1;1;0;1].

(** Blank VHF type A frame *)
Definition A_blank : list Z :=
  [1;0;1;0;0;1;1;1;  (* Padding[0:3] Proto[0:3]   *)
   1;0;1;0;0;1;1;1;  (* Proto[4:11]               *)
   0;0;0;0;0;0;0;0;  (* Voice[0:7]                *)
   0;0;0;0;0;0;0;0;  (* Voice[8:15]               *)
   0;0;0;0;0;0;0;0;  (* Voice[16:23]              *)
   0;1;1;0;0;1;1;1;  (* UW[0:7]                   *)
   1;0;1;0;1;1;0;1;  (* UW[8:15]                  *)
   0;0;0;0;0;0;0;0;  (* Voice[24:31]              *)
   0;0;0;0;0;0;0;0;  (* Voice[32:39]              *)
   0;0;0;0;0;0;0;0;  (* Voice[40:47]              *)
   0;0;0;0;0;0;1;0;  (* Voice[48:51] Proto[12:15] *)
   0;1;1;1;0;0;1;0]. (* Proto[16:19] Padding[4:7] *)

Definition ST_NOSYNC : Z := 0.
Definition ST_SYNC : Z := 1.

(** Get a single bit out of an MSB-first packed byte array *)
Definition UNPACK_BIT_MSBFIRST (bytes : list Z) (bitidx : Z) : option Z :=
  b ← rd bytes (Z.shiftr bitidx 3);
  Some (Z.land (Z.shiftr b (7 - Z.land bitidx 7)) 1).

(** ** The framer *)

(** Body of the four placing loops:
    [bits_out[i] = UNPACK_BIT_MSBFIRST(src,ibit); ibit++;] *)
Definition place_bit (src : list Z) (i : Z) (s : list Z * Z)
    : option (list Z * Z) :=
  let '(bits_out, ibit) := s in
  b ← UNPACK_BIT_MSBFIRST src ibit;
  bits_out ← wr bits_out i (u8 b);
  Some (bits_out, ibit + 1).

(** Place codec and other bits into a frame.  The result is the content
    of [bits_out] after the call. *)
Definition fvhff_frame_bits (frame_type : Z) (bits_out codec2_in : list Z)
    (proto_in vc_in : option (list Z)) : option (list Z) :=
  if frame_type =? FREEDV_VHF_FRAME_A then
    (* Fill out frame with blank frame prototype *)
    bits_out ← for_range 0 96 (λ i bo, a ← rd A_blank i; wr bo i a) bits_out;
    (* Fill in varicode bits, if present *)
    bits_out ← match vc_in with
               | Some vc =>
                   v0 ← rd vc 0; bo ← wr bits_out 90 v0;
                   v1 ← rd vc 1; wr bo 91 v1
               | None => Some bits_out
               end;
    (* Fill in protocol bits, if present *)
    bits_out ← match proto_in with
               | Some proto =>
                   let ibit := 0 in
                   s ← for_range 4 16 (place_bit proto) (bits_out, ibit);
                   s ← for_range 84 92 (place_bit proto) s;
                   Some (fst s)
               | None => Some bits_out
               end;
    (* Fill in codec2 bits, present or not *)
    let ibit := 0 in
    s ← for_range 16 40 (place_bit codec2_in) (bits_out, ibit);
    s ← for_range 56 84 (place_bit codec2_in) s;
    Some (fst s)
  else Some bits_out.

(** ** The deframer *)

(** Modelled from the spec: [struct freedv_vhf_deframer] is declared in
    freedv_vhf_framing.h, which is not among the sources.  Its fields
    are the ones the code reads and writes, with the roles the spec
    gives them; [bits] stands for the ring that the field points to. *)
Record freedv_vhf_deframer := mk_deframer {
  ftype : Z;          (* frame type *)
  state : Z;          (* sync state, ST_NOSYNC or ST_SYNC *)
  bits : list Z;      (* ring of the last frame_size bits received *)
  bitptr : Z;         (* write cursor into the ring *)
  miss_cnt : Z;       (* consecutive UW checks missed while synchronized *)
  last_uw : Z;        (* countdown: bits since the last UW check *)
  frame_size : Z      (* frame length *)
}.

(** Init and allocate memory for a freedv-vhf framer/deframer.  The two
    arguments after [frame_type] stand for the allocator: whether the
    [malloc] of the struct succeeds, and the block handed out by
    [malloc(sizeof(uint8_t)*96)], if any, with the indeterminate
    content it has at that moment (the buffer is not cleared). *)
Definition fvhff_create_deframer (frame_type : Z) (struct_ok : bool)
    (block : option (list Z)) : option freedv_vhf_deframer :=
  if frame_type =? FREEDV_VHF_FRAME_A then
    if struct_ok then
      match block with
      | Some mem =>
          Some {| bits := mem; ftype := frame_type; state := ST_NOSYNC;
                  bitptr := 0; last_uw := 0; miss_cnt := 0;
                  frame_size := 96 |}
      | None => None
      end
    else None
  else None.

Definition fvhff_synchronized (def : freedv_vhf_deframer) : Z :=
  if state def =? ST_SYNC then 1 else 0.

(** [ibit = bitptr + offset; if (ibit >= frame_size) ibit -= frame_size;] *)
Definition ring_start (bitptr offset frame_size : Z) : Z :=
  let ibit := bitptr + offset in
  if ibit >=? frame_size then ibit - frame_size else ibit.

(** [ibit++; if (ibit >= frame_size) ibit = 0;] *)
Definition ring_next (ibit frame_size : Z) : Z :=
  let ibit := ibit + 1 in
  if ibit >=? frame_size then 0 else ibit.

(** Body of the matching loop; the loop state is [(diff, ibit)]. *)
Definition match_bit (bits uw : list Z) (frame_size : Z) (iuw : Z)
    (s : Z * Z) : option (Z * Z) :=
  let '(diff, ibit) := s in
  b ← rd bits ibit;
  u ← rd uw iuw;
  let diff := if negb (b =? u) then diff + 1 else diff in
  Some (diff, ring_next ibit frame_size).

(** See if the UW is where it should be, to within a tolerance, in a bit
    buffer *)
Definition fvhff_match_uw (def : freedv_vhf_deframer) (tol : Z) : option Z :=
  let bits := bits def in
  let frame_type := ftype def in
  let bitptr := bitptr def in
  let frame_size := frame_size def in
  let diff := 0 in
  (* Set up parameters for the standard type of frame *)
  if frame_type =? FREEDV_VHF_FRAME_A then
    let uw := A_uw in
    let uw_len := 16 in
    let uw_offset := 40 in
    (* Start bit pointer where UW should be *)
    let ibit := ring_start bitptr uw_offset frame_size in
    (* Walk through and match bits in frame with bits of UW *)
    s ← for_range 0 uw_len (match_bit bits uw frame_size) (diff, ibit);
    Some (if fst s <=? tol then 1 else 0)
  else Some 0.

(** The caller's output arrays; [proto_out] and [vc_out] may be [NULL]. *)
Record outputs := mk_outputs {
  codec2_out : list Z;
  proto_out : option (list Z);
  vc_out : option (list Z)
}.

(** Body of the four packing loops; the loop state is [(out, iframe)]:
    [out[ibit>>3] |= (bits[iframe]&0x1)<<(7-(ibit&0x7)); iframe++;
     if (iframe >= frame_size) iframe = 0;] *)
Definition pack_bit (bits : list Z) (frame_size : Z) (ibit : Z)
    (s : list Z * Z) : option (list Z * Z) :=
  let '(out, iframe) := s in
  b ← rd bits iframe;
  old ← rd out (Z.shiftr ibit 3);
  out ← wr out (Z.shiftr ibit 3)
          (u8 (Z.lor old (Z.shiftl (Z.land b 1) (7 - Z.land ibit 7))));
  Some (out, ring_next iframe frame_size).

Definition fvhff_extract_frame (def : freedv_vhf_deframer) (o : outputs)
    : option outputs :=
  let bits := bits def in
  let frame_type := ftype def in
  let bitptr := bitptr def in
  let frame_size := frame_size def in
  if frame_type =? FREEDV_VHF_FRAME_A then
    (* Extract codec2 bits *)
    codec2 ← memset (codec2_out o) 0 7;
    (* Extract and pack first half, MSB first *)
    let iframe := ring_start bitptr 16 frame_size in
    s ← for_range 0 24 (pack_bit bits frame_size) (codec2, iframe);
    (* Extract and pack last half, MSB first *)
    let iframe := ring_start bitptr 56 frame_size in
    s ← for_range 24 52 (pack_bit bits frame_size) (fst s, iframe);
    let codec2 := fst s in
    (* Extract varicode bits, if wanted *)
    vc ← match vc_out o with
         | Some vc =>
             let iframe := ring_start bitptr 90 frame_size in
             v ← rd bits iframe; vc ← wr vc 0 v;
             let iframe := iframe + 1 in
             v ← rd bits iframe; vc ← wr vc 1 v;
             Some (Some vc)
         | None => Some None
         end;
    (* Extract protocol bits, if proto is passed through *)
    proto ← match proto_out o with
            | Some proto =>
                (* Clear protocol bit array *)
                proto ← memset proto 0 3;
                (* Extract and pack first half, MSB first *)
                let iframe := ring_start bitptr 4 frame_size in
                s ← for_range 0 12 (pack_bit bits frame_size) (proto, iframe);
                (* Extract and pack last half, MSB first *)
                let iframe := ring_start bitptr 84 frame_size in
                s ← for_range 12 20 (pack_bit bits frame_size) (fst s, iframe);
                Some (Some (fst s))
            | None => Some None
            end;
    Some {| codec2_out := codec2; proto_out := proto; vc_out := vc |}
  else Some o.

(** The local variables of [fvhff_deframe_bits] that change in its loop,
    with the struct (whose [bits] and [bitptr] the loop updates in
    place) and the output arrays.  [l_events] is a ghost counter of the
    calls to [fvhff_extract_frame]; the code has no such variable. *)
Record locals := mk_locals {
  l_def : freedv_vhf_deframer;
  l_state : Z;
  l_bitptr : Z;
  l_last_uw : Z;
  l_miss_cnt : Z;
  l_extracted_frame : Z;
  l_out : outputs;
  l_events : nat
}.

Definition with_ring (def : freedv_vhf_deframer) (ring : list Z) (ptr : Z)
    : freedv_vhf_deframer :=
  {| ftype := ftype def; state := state def; bits := ring; bitptr := ptr;
     miss_cnt := miss_cnt def; last_uw := last_uw def;
     frame_size := frame_size def |}.

(** One iteration of the loop of [fvhff_deframe_bits]. *)
Definition deframe_bit (frame_size uw_first_tol uw_sync_tol miss_tol : Z)
    (bits_in : list Z) (i : Z) (l : locals) : option locals :=
  (* Put a bit in the buffer *)
  b ← rd bits_in i;
  ring ← wr (bits (l_def l)) (l_bitptr l) b;
  let bitptr := l_bitptr l + 1 in
  let bitptr := if bitptr >=? frame_size then 0 else bitptr in
  let def := with_ring (l_def l) ring bitptr in
  (* Enter state machine *)
  if l_state l =? ST_SYNC then
    (* Already synchronized, just wait till UW is back where it should be *)
    let last_uw := l_last_uw l + 1 in
    (* UW should be here. We're sunk, so deframe anyway *)
    if last_uw =? frame_size then
      let last_uw := 0 in
      m ← fvhff_match_uw def uw_sync_tol;
      let miss_cnt := if m =? 0 then l_miss_cnt l + 1 else 0 in
      (* If we go over the miss tolerance, go into no-sync *)
      let state := if miss_cnt >? miss_tol then ST_NOSYNC else l_state l in
      (* Extract the bits *)
      out ← fvhff_extract_frame def (l_out l);
      Some {| l_def := def; l_state := state; l_bitptr := bitptr;
              l_last_uw := last_uw; l_miss_cnt := miss_cnt;
              l_extracted_frame := 1; l_out := out;
              l_events := S (l_events l) |}
    else
      Some {| l_def := def; l_state := l_state l; l_bitptr := bitptr;
              l_last_uw := last_uw; l_miss_cnt := l_miss_cnt l;
              l_extracted_frame := l_extracted_frame l; l_out := l_out l;
              l_events := l_events l |}
  (* Not yet sunk *)
  else
    m ← fvhff_match_uw def uw_first_tol;
    (* It's a sync! *)
    if negb (m =? 0) then
      out ← fvhff_extract_frame def (l_out l);
      Some {| l_def := def; l_state := ST_SYNC; l_bitptr := bitptr;
              l_last_uw := 0; l_miss_cnt := 0;
              l_extracted_frame := 1; l_out := out;
              l_events := S (l_events l) |}
    else
      Some {| l_def := def; l_state := l_state l; l_bitptr := bitptr;
              l_last_uw := l_last_uw l; l_miss_cnt := l_miss_cnt l;
              l_extracted_frame := l_extracted_frame l; l_out := l_out l;
              l_events := l_events l |}.

(** The locals on entry to the loop. *)
Definition deframe_entry (def : freedv_vhf_deframer) (o : outputs) : locals :=
  {| l_def := def; l_state := state def; l_bitptr := bitptr def;
     l_last_uw := last_uw def; l_miss_cnt := miss_cnt def;
     l_extracted_frame := 0; l_out := o; l_events := O |}.

(** The first [n] iterations of the loop of a call on a Type A deframer. *)
Definition deframe_loop (n : nat) (def : freedv_vhf_deframer) (o : outputs)
    (bits_in : list Z) : option locals :=
  for_loop n 0 (deframe_bit (frame_size def) 2 1 2 bits_in)
    (deframe_entry def o).

(** Try to find the UW and extract codec/proto/vc bits in
    [def->frame_size] bits.  The result is the struct and the output
    arrays after the call, and the returned [extracted_frame]. *)
Definition fvhff_deframe_bits (def : freedv_vhf_deframer) (o : outputs)
    (bits_in : list Z) : option (freedv_vhf_deframer * outputs * Z) :=
  let frame_type := ftype def in
  let frame_size := frame_size def in
  (* Possibly set up frame-specific params here *)
  if frame_type =? FREEDV_VHF_FRAME_A then
    let uw_first_tol := 2 in (* The UW bit-error tolerance for the first frame *)
    let uw_sync_tol := 1 in  (* The UW bit error tolerance for frames after sync *)
    let miss_tol := 2 in     (* How many UWs may be missed before going into the de-synced state *)
    l ← for_range 0 frame_size
          (deframe_bit frame_size uw_first_tol uw_sync_tol miss_tol bits_in)
          (deframe_entry def o);
    Some ({| ftype := ftype (l_def l); state := l_state l;
             bits := bits (l_def l); bitptr := bitptr (l_def l);
             miss_cnt := l_miss_cnt l; last_uw := l_last_uw l;
             frame_size := frame_size |},
          l_out l, l_extracted_frame l)
  else Some (def, o, 0).

(** The number of iterations of one call in which
    [fvhff_extract_frame] ran. *)
Definition extraction_events (def : freedv_vhf_deframer) (o : outputs)
    (bits_in : list Z) : option nat :=
  if ftype def =? FREEDV_VHF_FRAME_A then
    l ← deframe_loop (Z.to_nat (frame_size def)) def o bits_in;
    Some (l_events l)
  else Some O.

(** ** Closed forms used in the statements *)

(** [a[i]], 0 outside the array. *)
Definition getz (a : list Z) (i : Z) : Z := default 0 (rd a i).

(** Bit [k] of an MSB-first packed array, 0 outside the array. *)
Definition bit_of (bytes : list Z) (k : Z) : Z :=
  default 0 (UNPACK_BIT_MSBFIRST bytes k).

(** Bit [i] of the Type A frame assembled from the given inputs: the
    last write to position [i] in [fvhff_frame_bits]. *)
Definition frame_bit (codec2_in : list Z) (proto_in vc_in : option (list Z))
    (i : Z) : Z :=
  if (16 <=? i) && (i <? 40) then bit_of codec2_in (i - 16)
  else if (56 <=? i) && (i <? 84) then bit_of codec2_in (i - 32)
  else
    match proto_in, vc_in with
    | Some proto, _ =>
        if (4 <=? i) && (i <? 16) then bit_of proto (i - 4)
        else if (84 <=? i) && (i <? 92) then bit_of proto (i - 72)
        else getz A_blank i
    | None, Some vc =>
        if (90 <=? i) && (i <? 92) then getz vc (i - 90) else getz A_blank i
    | None, None => getz A_blank i
    end.

(** The caller's arrays are large enough for [fvhff_frame_bits]. *)
Definition frame_args_ok (bits_out codec2_in : list Z)
    (proto_in vc_in : option (list Z)) : Prop :=
  (96 ≤ length bits_out)%nat ∧ (7 ≤ length codec2_in)%nat ∧
  (∀ p, proto_in = Some p → (3 ≤ length p)%nat) ∧
  (∀ v, vc_in = Some v → (2 ≤ length v)%nat).

(** The cursor after one more bit:
    [bitptr++; if (bitptr >= frame_size) bitptr = 0;] *)
Definition next_bitptr (bitptr frame_size : Z) : Z :=
  let bitptr := bitptr + 1 in
  if bitptr >=? frame_size then 0 else bitptr.

(** The four ways through one iteration of the deframer loop, from the
    locals [l] to the locals [l'], the struct being [def] once the bit
    is stored and the cursor advanced. *)
Definition sync_check (fs tol mt : Z) (def : freedv_vhf_deframer)
    (l l' : locals) : Prop :=
  l_state l = ST_SYNC ∧ l_last_uw l + 1 = fs ∧
  ∃ m out, fvhff_match_uw def tol = Some m ∧
           fvhff_extract_frame def (l_out l) = Some out ∧
           l' = {| l_def := def;
                   l_state := if (if m =? 0 then l_miss_cnt l + 1 else 0) >? mt
                              then ST_NOSYNC else l_state l;
                   l_bitptr := bitptr def; l_last_uw := 0;
                   l_miss_cnt := if m =? 0 then l_miss_cnt l + 1 else 0;
                   l_extracted_frame := 1; l_out := out;
                   l_events := S (l_events l) |}.

Definition sync_wait (fs : Z) (def : freedv_vhf_deframer)
    (l l' : locals) : Prop :=
  l_state l = ST_SYNC ∧ l_last_uw l + 1 ≠ fs ∧
  l' = {| l_def := def; l_state := l_state l; l_bitptr := bitptr def;
          l_last_uw := l_last_uw l + 1; l_miss_cnt := l_miss_cnt l;
          l_extracted_frame := l_extracted_frame l; l_out := l_out l;
          l_events := l_events l |}.

Definition nosync_hit (tol : Z) (def : freedv_vhf_deframer)
    (l l' : locals) : Prop :=
  l_state l ≠ ST_SYNC ∧
  ∃ m out, fvhff_match_uw def tol = Some m ∧ m ≠ 0 ∧
           fvhff_extract_frame def (l_out l) = Some out ∧
           l' = {| l_def := def; l_state := ST_SYNC; l_bitptr := bitptr def;
                   l_last_uw := 0; l_miss_cnt := 0;
                   l_extracted_frame := 1; l_out := out;
                   l_events := S (l_events l) |}.

Definition nosync_miss (tol : Z) (def : freedv_vhf_deframer)
    (l l' : locals) : Prop :=
  l_state l ≠ ST_SYNC ∧ fvhff_match_uw def tol = Some 0 ∧
  l' = {| l_def := def; l_state := l_state l; l_bitptr := bitptr def;
          l_last_uw := l_last_uw l; l_miss_cnt := l_miss_cnt l;
          l_extracted_frame := l_extracted_frame l; l_out := l_out l;
          l_events := l_events l |}.

(** The ring bit at [offset] from the cursor, wrapping. *)
Definition ring_bit (ring : list Z) (cursor offset : Z) : Z :=
  getz ring ((cursor + offset) mod 96).

(** The Hamming distance between the first [n] bits of the UW and the
    ring bits at offset 40 from the cursor. *)
Fixpoint uw_errors (ring : list Z) (cursor : Z) (n : nat) : Z :=
  match n with
  | O => 0
  | S n' =>
      uw_errors ring cursor n' +
      (if ring_bit ring cursor (40 + Z.of_nat n') =? getz A_uw (Z.of_nat n')
       then 0 else 1)
  end.

(** Byte [m] of a cleared array after the first [n] bits of [src] have
    been packed into it, MSB first. *)
Fixpoint packed (src : Z → Z) (m : Z) (n : nat) : Z :=
  match n with
  | O => 0
  | S n' =>
      let k := Z.of_nat n' in
      let acc := packed src m n' in
      if Z.shiftr k 3 =? m
      then u8 (Z.lor acc (Z.shiftl (Z.land (src k) 1) (7 - Z.land k 7)))
      else acc
  end.

(** Frame offset of payload bit [k] and of protocol bit [k]. *)
Definition payload_off (k : Z) : Z := if k <? 24 then 16 + k else 32 + k.
Definition proto_off (k : Z) : Z := if k <? 12 then 4 + k else 72 + k.

(** The first [n] cells of [a] replaced by [f 0 .. f (n - 1)]. *)
Definition overwrite (n : nat) (f : Z → Z) (a : list Z) : list Z :=
  map f (seqZ 0 (Z.of_nat n)) ++ drop n a.

(** The output arrays after an extraction from [ring] at [cursor]. *)
Definition extracted (ring : list Z) (cursor : Z) (o : outputs) : outputs :=
  {| codec2_out :=
       overwrite 7 (λ m, packed (λ k, ring_bit ring cursor (payload_off k)) m 52)
         (codec2_out o);
     proto_out :=
       overwrite 3 (λ m, packed (λ k, ring_bit ring cursor (proto_off k)) m 20)
         <$> proto_out o;
     vc_out :=
       overwrite 2 (λ m, ring_bit ring cursor (90 + m)) <$> vc_out o |}.

(** The ring of a Type A deframer: 96 cells, cursor inside. *)
Definition ring_ok (def : freedv_vhf_deframer) : Prop :=
  ftype def = FREEDV_VHF_FRAME_A ∧ frame_size def = 96 ∧
  length (bits def) = 96%nat ∧ 0 <= bitptr def < 96.

(** The caller's output arrays are large enough. *)
Definition outputs_ok (o : outputs) : Prop :=
  (7 ≤ length (codec2_out o))%nat ∧
  (∀ p, proto_out o = Some p → (3 ≤ length p)%nat) ∧
  (∀ v, vc_out o = Some v → (2 ≤ length v)%nat).

(** The deframers that can be met: one made by
    [fvhff_create_deframer] (whose ring is a fresh block of 96 bytes),
    then any number of calls of [fvhff_deframe_bits]. *)
Inductive reachable : freedv_vhf_deframer → Prop :=
  | reach_create frame_type mem def :
      length mem = 96%nat →
      fvhff_create_deframer frame_type true (Some mem) = Some def →
      reachable def
  | reach_deframe def o bits_in def' o' r :
      reachable def →
      fvhff_deframe_bits def o bits_in = Some (def', o', r) →
      reachable def'.

(** What holds of a deframer between two calls. *)
Definition deframer_ok (def : freedv_vhf_deframer) : Prop :=
  ring_ok def ∧ bitptr def = 0 ∧
  0 <= last_uw def < 96 ∧ 0 <= miss_cnt def <= 3 ∧
  (state def = ST_NOSYNC ∨ state def = ST_SYNC ∧ miss_cnt def <= 2).

(** What holds of the locals between two iterations of a call. *)
Definition locals_ok (l : locals) : Prop :=
  ring_ok (l_def l) ∧ l_bitptr l = bitptr (l_def l) ∧
  0 <= l_last_uw l < 96 ∧ 0 <= l_miss_cnt l <= 3 ∧
  (l_state l = ST_NOSYNC ∨ l_state l = ST_SYNC ∧ l_miss_cnt l <= 2).

(** The ring after the first [k] bits of a batch have been stored from
    cursor 0 on. *)
Definition ring_after (ring0 bits_in : list Z) (k : nat) : list Z :=
  take k bits_in ++ drop k ring0.

(** The locals after [k] iterations of a call in which the state
    machine did nothing but count. *)
Definition waiting (def : freedv_vhf_deframer) (o : outputs)
    (bits_in : list Z) (k : nat) : locals :=
  {| l_def := with_ring def (ring_after (bits def) bits_in k) (Z.of_nat k);
     l_state := state def; l_bitptr := Z.of_nat k;
     l_last_uw := if state def =? ST_SYNC then last_uw def + Z.of_nat k
                  else last_uw def;
     l_miss_cnt := miss_cnt def; l_extracted_frame := 0; l_out := o;
     l_events := O |}.

(** The matcher, with the first-frame tolerance of 2 bit errors,
    finds no UW at any of the first [n] cursor positions that a batch
    stored from cursor 0 goes through. *)
Fixpoint uw_absent_upto (ring0 bits_in : list Z) (n : nat) : bool :=
  match n with
  | O => true
  | S n' =>
      uw_absent_upto ring0 bits_in n' &&
      match fvhff_match_uw
              {| ftype := FREEDV_VHF_FRAME_A; state := ST_NOSYNC;
                 bits := ring_after ring0 bits_in n; bitptr := Z.of_nat n;
                 miss_cnt := 0; last_uw := 0; frame_size := 96 |} 2 with
      | Some 0 => true
      | _ => false
      end
  end.

(** The UW field of a frame, and its Hamming distance to the UW. *)
Definition uw_field (f : list Z) : list Z := take 16 (drop 40 f).

Fixpoint field_errors (w : list Z) (n : nat) : Z :=
  match n with
  | O => 0
  | S n' =>
      field_errors w n' +
      (if getz w (Z.of_nat n') =? getz A_uw (Z.of_nat n') then 0 else 1)
  end.

Definition uw_distance (f : list Z) : Z := field_errors (uw_field f) 16.

(** A frame with the UW bits at the positions [js] (0..15) flipped. *)
Definition flip (b : Z) : Z := 1 - b.


Definition corrupt_uw (js : list nat) (f : list Z) : list Z :=
  foldr (λ j, alter flip (40 + j)%nat) f js.

(** The struct as [fvhff_deframe_bits] leaves it, for a frame size of
    96. *)
Definition deframe_exit (l : locals) : freedv_vhf_deframer :=
  {| ftype := ftype (l_def l); state := l_state l; bits := bits (l_def l);
     bitptr := bitptr (l_def l); miss_cnt := l_miss_cnt l;
     last_uw := l_last_uw l; frame_size := 96 |}.

(** A 52-bit payload in 7 bytes and a 20-bit protocol field in 3 bytes,
    MSB first: the four low-order bits of the last byte are unused. *)
Definition payload52 (c : list Z) : Prop :=
  length c = 7%nat ∧ Forall (λ b, 0 <= b < 256) c ∧ Z.land (getz c 6) 15 = 0.

Definition proto20 (p : list Z) : Prop :=
  length p = 3%nat ∧ Forall (λ b, 0 <= b < 256) p ∧ Z.land (getz p 2) 15 = 0.

(** The number of bits of a batch that a Synchronized deframer stores
    up to its next check of the UW, and the 96 bits that the ring then
    holds from the cursor on: the end of the batch before and the
    beginning of this one. *)
Definition bits_to_check (def : freedv_vhf_deframer) : nat :=
  Z.to_nat (96 - last_uw def).

Definition frame_at_check (def : freedv_vhf_deframer) (bits_in : list Z)
    : list Z :=
  drop (bits_to_check def) (bits def) ++ take (bits_to_check def) bits_in.



(** The locals [n] iterations after an extraction on bit [k] of the
    batch that left the deframer Synchronized with [miss] misses
    counted and the output arrays [out]: the state machine counts. *)
Definition counting (def : freedv_vhf_deframer) (bits_in : list Z) (k : nat)
    (miss : Z) (out : outputs) (n : nat) : locals :=
  {| l_def := with_ring def (ring_after (bits def) bits_in (n + S k))
                (Z.of_nat (n + S k) mod 96);
     l_state := ST_SYNC; l_bitptr := Z.of_nat (n + S k) mod 96;
     l_last_uw := Z.of_nat n; l_miss_cnt := miss; l_extracted_frame := 1;
     l_out := out; l_events := 1 |}.

(** ** Sample inputs *)

Definition zeros96 : list Z := replicate 96 0.

(** 96 zero bits except the UW placed at offset [n]. *)
Definition uw_at (n : nat) : list Z :=
  replicate n 0 ++ A_uw ++ replicate (80 - n) 0.

(** 96 zero bits except the UW, every bit flipped, at offset 40. *)
Definition flipped_uw_frame : list Z :=
  replicate 40 0 ++ map flip A_uw ++ replicate 40 0.

(** A deframer just created, on a block that happens to be clear. *)
Definition cold : freedv_vhf_deframer :=
  {| ftype := FREEDV_VHF_FRAME_A; state := ST_NOSYNC; bits := zeros96;
     bitptr := 0; miss_cnt := 0; last_uw := 0; frame_size := 96 |}.

(** [cold] after a batch with the UW where a frame has it. *)
Definition locked : freedv_vhf_deframer :=
  {| ftype := FREEDV_VHF_FRAME_A; state := ST_SYNC; bits := uw_at 40;
     bitptr := 0; miss_cnt := 0; last_uw := 0; frame_size := 96 |}.

(** [cold] after a batch with the UW at offset 45: nothing found yet,
    the UW sits where a cursor at 5 expects it. *)
Definition misaligned : freedv_vhf_deframer :=
  {| ftype := FREEDV_VHF_FRAME_A; state := ST_NOSYNC; bits := uw_at 45;
     bitptr := 0; miss_cnt := 0; last_uw := 0; frame_size := 96 |}.

(** [cold] after a batch with the UW at offset 0 (locked at cursor 56)
    and two batches of zeros (two checks missed). *)
Definition drifting : freedv_vhf_deframer :=
  {| ftype := FREEDV_VHF_FRAME_A; state := ST_SYNC; bits := zeros96;
     bitptr := 0; miss_cnt := 2; last_uw := 40; frame_size := 96 |}.

(** Output arrays of 7, 3 and 2 bytes, and the same without a
    side-channel destination. *)
Definition spare : outputs :=
  {| codec2_out := replicate 7 0; proto_out := Some (replicate 3 0);
     vc_out := Some [0; 0] |}.

Definition spare_no_vc : outputs :=
  {| codec2_out := replicate 7 0; proto_out := Some (replicate 3 0);
     vc_out := None |}.

(** A payload whose first 16 bits are the UW, and an ordinary one. *)
Definition uw_payload : list Z := [0x67; 0xAD; 0; 0; 0; 0; 0].
Definition plain_payload : list Z := [0xA5; 1; 2; 3; 4; 5; 0x60].
Definition plain_proto : list Z := [0x12; 0x34; 0x50].

(** The frame assembled from the ordinary payload and protocol field. *)
Definition plain_frame : list Z :=
  default [] (fvhff_frame_bits FREEDV_VHF_FRAME_A zeros96 plain_payload
                (Some plain_proto) (Some [0; 1])).

(** The frame assembled from the payload that starts with the UW. *)
Definition uw_payload_frame : list Z :=
  default [] (fvhff_frame_bits FREEDV_VHF_FRAME_A zeros96 uw_payload
                (Some [0; 0; 0]) (Some [0; 0])).

(** A stream of copies of that frame cut into batches 40 bits into
    each frame, and the deframer that [cold] becomes on its first
    batch: locked with 40 bits of the next frame already in the ring. *)
Definition straddled : list Z := drop 40 plain_frame ++ take 40 plain_frame.

Definition midway : freedv_vhf_deframer :=
  {| ftype := FREEDV_VHF_FRAME_A; state := ST_SYNC; bits := straddled;
     bitptr := 0; miss_cnt := 0; last_uw := 40; frame_size := 96 |}.

(** The two frames above with their 16 UW bits flipped. *)
Definition flipped_plain_frame : list Z := corrupt_uw (seq 0 16) plain_frame.

Definition flipped_uw_payload_frame : list Z :=
  corrupt_uw (seq 0 16) uw_payload_frame.

(** Output arrays longer than needed, every byte 0xFF. *)
Definition used : outputs :=
  {| codec2_out := replicate 8 255; proto_out := Some (replicate 4 255);
     vc_out := Some (replicate 3 255) |}.

(** * Properties *)

Arguments packed : simpl never.
Arguments uw_errors : simpl never.
Arguments overwrite : simpl never.
Arguments extracted : simpl never.
Arguments field_errors : simpl never.
Arguments ring_after : simpl never.
Arguments uw_absent_upto : simpl never.

(** ** Memory *)

Lemma rd_Some a i v :
  rd a i = Some v ↔ 0 <= i < Z.of_nat (length a) ∧ a !! Z.to_nat i = Some v.
Proof.
  unfold rd. destruct (0 <=? i) eqn:H1; destruct (i <? Z.of_nat (length a)) eqn:H2;
    simpl; split; try discriminate; try lia; intros; intuition lia.
Qed.

Lemma rd_lt a i :
  0 <= i < Z.of_nat (length a) → ∃ v, rd a i = Some v.
Proof.
  intros H. destruct (lookup_lt_is_Some_2 a (Z.to_nat i)) as [v Hv]; [lia|].
  exists v. apply rd_Some. auto.
Qed.

Lemma rd_None a i :
  rd a i = None ↔ ¬ (0 <= i < Z.of_nat (length a)).
Proof.
  split.
  - intros H Hr. destruct (rd_lt a i Hr) as [v Hv]. congruence.
  - intros H. destruct (rd a i) eqn:E; [|done].
    apply rd_Some in E. tauto.
Qed.

Lemma wr_Some a i v a' :
  wr a i v = Some a' ↔
  0 <= i < Z.of_nat (length a) ∧ a' = <[Z.to_nat i := v]> a.
Proof.
  unfold wr. destruct (0 <=? i) eqn:H1; destruct (i <? Z.of_nat (length a)) eqn:H2;
    simpl; split; try discriminate; try lia; intros; intuition (try lia; congruence).
Qed.

Lemma wr_lt a i v :
  0 <= i < Z.of_nat (length a) → wr a i v = Some (<[Z.to_nat i := v]> a).
Proof. intros. apply wr_Some. auto. Qed.

Lemma memset_Some a v n a' :
  memset a v n = Some a' ↔ (n ≤ length a)%nat ∧ a' = replicate n v ++ drop n a.
Proof.
  unfold memset. destruct (Nat.leb_spec n (length a)); split;
    try discriminate; intros; intuition (try lia; congruence).
Qed.

(** ** Loops *)

Section for_loop.
  Context {St : Type} (body : Z → St → option St).

Lemma for_loop_add n m i s :
  for_loop (n + m) i body s =
  for_loop n i body s ≫= for_loop m (i + Z.of_nat n) body.
Proof.
  revert i s. induction n as [|n IH]; intros i s.
  - simpl. by replace (i + Z.of_nat 0) with i by lia.
  - simpl. destruct (body i s) as [s'|]; simpl; [|done].
    rewrite IH. by replace (i + 1 + Z.of_nat n) with (i + Z.of_nat (S n)) by lia.
Qed.

Lemma for_loop_snoc n i s :
  for_loop (S n) i body s =
  for_loop n i body s ≫= body (i + Z.of_nat n).
Proof.
  replace (S n) with (n + 1)%nat by lia. rewrite for_loop_add.
  destruct (for_loop n i body s) as [t|]; simpl; [|done].
  by destruct (body (i + Z.of_nat n) t).
Qed.

(** A property that every iteration carries from index [j] to [j + 1]
    holds of the final state, if there is one. *)
Lemma for_loop_inv (P : Z → St → Prop) n i s s' :
  P i s →
  (∀ j t t', i <= j < i + Z.of_nat n → P j t → body j t = Some t' → P (j + 1) t') →
  for_loop n i body s = Some s' →
  P (i + Z.of_nat n) s'.
Proof.
  revert i s. induction n as [|n IH]; intros i s H0 Hstep Hrun.
  - simpl in Hrun. injection Hrun as <-. by replace (i + Z.of_nat 0) with i by lia.
  - simpl in Hrun. destruct (body i s) as [t|] eqn:Hb; [|done]. simpl in Hrun.
    replace (i + Z.of_nat (S n)) with (i + 1 + Z.of_nat n) by lia.
    apply (IH (i + 1) t); [|intros; eapply Hstep; eauto; lia|done].
    eapply Hstep; eauto. lia.
Qed.

(** If moreover no iteration fails on a state with the property, the
    loop runs to its end. *)
Lemma for_loop_total (P : Z → St → Prop) n i s :
  P i s →
  (∀ j t, i <= j < i + Z.of_nat n → P j t → ∃ t', body j t = Some t' ∧ P (j + 1) t') →
  ∃ s', for_loop n i body s = Some s' ∧ P (i + Z.of_nat n) s'.
Proof.
  revert i s. induction n as [|n IH]; intros i s H0 Hstep.
  - exists s. simpl. by replace (i + Z.of_nat 0) with i by lia.
  - destruct (Hstep i s) as (t & Hb & Ht); [lia|done|].
    destruct (IH (i + 1) t) as (s' & Hrun & Hs'); [done|intros; apply Hstep; [lia|done]|].
    exists s'. simpl. rewrite Hb. simpl.
    by replace (i + Z.of_nat (S n)) with (i + 1 + Z.of_nat n) by lia.
Qed.

(** The loop follows a given sequence of states. *)
Lemma for_loop_trace (g : nat → St) n i :
  (∀ k, (k < n)%nat → body (i + Z.of_nat k) (g k) = Some (g (S k))) →
  for_loop n i body (g O) = Some (g n).
Proof.
  induction n as [|n IH]; intros H; [done|].
  rewrite for_loop_snoc, IH by (intros; apply H; lia). simpl. apply H. lia.
Qed.

End for_loop.

Arguments for_loop_inv {St body} P n i s s'.
Arguments for_loop_total {St} body P n i s.
Arguments for_loop_trace {St body} g n i.

Lemma rd_getz a i : 0 <= i < Z.of_nat (length a) → rd a i = Some (getz a i).
Proof. intros H. unfold getz. by destruct (rd_lt a i H) as [v ->]. Qed.

Lemma rd_insert a i v x :
  0 <= i < Z.of_nat (length a) →
  rd (<[Z.to_nat i := v]> a) x = if x =? i then Some v else rd a x.
Proof.
  intros Hi. unfold rd. rewrite length_insert.
  destruct (Z.eqb_spec x i) as [->|Hne].
  - replace ((0 <=? i) && (i <? Z.of_nat (length a))) with true
      by (symmetry; apply andb_true_iff; lia).
    apply list_lookup_insert_eq. lia.
  - destruct ((0 <=? x) && (x <? Z.of_nat (length a))) eqn:E; [|done].
    apply andb_true_iff in E. apply list_lookup_insert_ne. lia.
Qed.

Lemma rd_length_ext a b :
  length a = length b → (∀ y, rd a y = rd b y) → a = b.
Proof.
  intros Hl H. apply list_eq. intros n.
  destruct (decide (n < length a)%nat) as [Hn|Hn].
  - specialize (H (Z.of_nat n)). unfold rd in H.
    rewrite <- Hl, Nat2Z.id in H.
    replace ((0 <=? Z.of_nat n) && (Z.of_nat n <? Z.of_nat (length a))) with true in H
      by (symmetry; apply andb_true_iff; lia).
    done.
  - rewrite !lookup_ge_None_2 by lia. done.
Qed.

Lemma u8_bit x : u8 (Z.land x 1) = Z.land x 1.
Proof.
  unfold u8. apply Z.mod_small.
  change 1 with (Z.ones 1). rewrite Z.land_ones by lia.
  pose proof (Z.mod_pos_bound x (2 ^ 1)). lia.
Qed.

Lemma u8_bit_of bytes k : u8 (bit_of bytes k) = bit_of bytes k.
Proof.
  unfold bit_of, UNPACK_BIT_MSBFIRST.
  destruct (rd bytes _); simpl; [apply u8_bit|done].
Qed.

Lemma UNPACK_Some bytes k :
  0 <= k < 8 * Z.of_nat (length bytes) →
  UNPACK_BIT_MSBFIRST bytes k = Some (bit_of bytes k).
Proof.
  intros Hk. unfold bit_of, UNPACK_BIT_MSBFIRST.
  destruct (rd_lt bytes (Z.shiftr k 3)) as [b ->]; [|done].
  rewrite Z.shiftr_div_pow2 by lia. change (2 ^ 3) with 8.
  split; [apply Z.div_pos; lia|apply Z.div_lt_upper_bound; lia].
Qed.

(** ** The framer *)

Lemma blank_loop_spec bo :
  (96 ≤ length bo)%nat →
  ∃ f, for_range 0 96 (λ i bo, a ← rd A_blank i; wr bo i a) bo = Some f ∧
       length f = length bo ∧
       ∀ x, rd f x = if (0 <=? x) && (x <? 96) then rd A_blank x else rd bo x.
Proof.
  intros Hl. unfold for_range.
  destruct (for_loop_total (λ i bo, a ← rd A_blank i; wr bo i a)
    (λ j b, length b = length bo ∧
            ∀ x, rd b x = if (0 <=? x) && (x <? j) then rd A_blank x else rd bo x)
    (Z.to_nat (96 - 0)) 0 bo)
    as (f & Hrun & Hlen & Hf).
  - split; [done|]. intros x. destruct (0 <=? x) eqn:?, (x <? 0) eqn:?; simpl; try done; lia.
  - intros j b Hj [Hlen Hb].
    destruct (rd_lt A_blank j) as [a Ha]; [simpl; lia|].
    exists (<[Z.to_nat j := a]> b). rewrite Ha. simpl.
    split; [apply wr_lt; lia|]. split; [by rewrite length_insert|].
    intros x. rewrite rd_insert by lia. rewrite Hb.
    destruct (Z.eqb_spec x j) as [->|Hne].
    + replace ((0 <=? j) && (j <? j + 1)) with true; [done|].
      symmetry; apply andb_true_iff; lia.
    + destruct (0 <=? x) eqn:?, (x <? j) eqn:?, (x <? j + 1) eqn:?; simpl; try done; lia.
  - exists f. done.
Qed.

Lemma place_loop_spec src lo hi bo ibit0 :
  0 <= lo <= hi → hi <= Z.of_nat (length bo) →
  0 <= ibit0 → ibit0 + (hi - lo) <= 8 * Z.of_nat (length src) →
  ∃ f, for_range lo hi (place_bit src) (bo, ibit0) = Some (f, ibit0 + (hi - lo)) ∧
       length f = length bo ∧
       ∀ x, rd f x = if (lo <=? x) && (x <? hi)
                     then Some (bit_of src (ibit0 + (x - lo))) else rd bo x.
Proof.
  intros Hlo Hhi Hib Hsrc. unfold for_range.
  destruct (for_loop_total (place_bit src)
    (λ j s, length (fst s) = length bo ∧ snd s = ibit0 + (j - lo) ∧
            ∀ x, rd (fst s) x = if (lo <=? x) && (x <? j)
                                then Some (bit_of src (ibit0 + (x - lo))) else rd bo x)
    (Z.to_nat (hi - lo)) lo (bo, ibit0))
    as ([f ib] & Hrun & Hlen & Hib' & Hf).
  - simpl. split; [done|]. split; [lia|].
    intros x. destruct (lo <=? x) eqn:?, (x <? lo) eqn:?; simpl; try done; lia.
  - intros j [b ib] Hj (Hlen & Hib' & Hb). simpl in *. subst ib.
    rewrite UNPACK_Some by lia. simpl.
    rewrite u8_bit_of, wr_lt by lia. simpl. eexists. split; [done|]. simpl.
    rewrite length_insert. split; [done|]. split; [lia|].
    intros x. rewrite rd_insert by lia. rewrite Hb.
    destruct (Z.eqb_spec x j) as [->|Hne].
    + replace ((lo <=? j) && (j <? j + 1)) with true
        by (symmetry; apply andb_true_iff; lia).
      done.
    + destruct (lo <=? x) eqn:?, (x <? j) eqn:?, (x <? j + 1) eqn:?; simpl; try done; lia.
  - simpl in *. subst ib. exists f.
    replace (lo + Z.of_nat (Z.to_nat (hi - lo))) with hi in * by lia. done.
Qed.

(** Case analysis on the integer comparisons of the goal, dropping the
    impossible cases. *)
Ltac case_cmp :=
  rewrite ?Z.geb_leb, ?Z.gtb_ltb;
  repeat match goal with
  | |- context [ (?a <=? ?b) ] => destruct (Z.leb_spec a b); try lia
  | |- context [ (?a <? ?b) ] => destruct (Z.ltb_spec a b); try lia
  | |- context [ (?a =? ?b) ] => destruct (Z.eqb_spec a b); try lia
  end; simpl.

Lemma frame_bits_spec bo c p v :
  frame_args_ok bo c p v →
  ∃ f, fvhff_frame_bits FREEDV_VHF_FRAME_A bo c p v = Some f ∧
       length f = length bo ∧
       ∀ x, rd f x = if (0 <=? x) && (x <? 96)
                     then Some (frame_bit c p v x) else rd bo x.
Proof.
  intros (Hbo & Hc & Hp & Hv). unfold fvhff_frame_bits.
  rewrite Z.eqb_refl.
  destruct (blank_loop_spec bo Hbo) as (f1 & -> & Hl1 & Hf1). simpl.
  (* the side channel *)
  assert (∃ f2, match v with
                | Some vc => v0 ← rd vc 0; bo ← wr f1 90 v0;
                             v1 ← rd vc 1; wr bo 91 v1
                | None => Some f1
                end = Some f2 ∧ length f2 = length bo ∧
          ∀ x, rd f2 x =
                 match v with
                 | Some vc => if (90 <=? x) && (x <? 92)
                              then Some (getz vc (x - 90)) else rd f1 x
                 | None => rd f1 x
                 end) as (f2 & -> & Hl2 & Hf2).
  { destruct v as [vc|]; [|by exists f1].
    specialize (Hv vc eq_refl).
    rewrite (rd_getz vc 0), (rd_getz vc 1) by lia. simpl.
    rewrite wr_lt by lia. simpl. rewrite wr_lt by (rewrite length_insert; lia).
    eexists. split; [done|]. rewrite !length_insert. split; [done|].
    intros x. rewrite !rd_insert by (rewrite ?length_insert; lia).
    case_cmp; repeat f_equal; lia. }
  simpl.
  (* the protocol field *)
  assert (∃ f3, match p with
                | Some proto =>
                    s ← for_range 4 16 (place_bit proto) (f2, 0);
                    s ← for_range 84 92 (place_bit proto) s;
                    Some (fst s)
                | None => Some f2
                end = Some f3 ∧ length f3 = length bo ∧
          ∀ x, rd f3 x =
                 match p with
                 | Some proto =>
                     if (4 <=? x) && (x <? 16) then Some (bit_of proto (x - 4))
                     else if (84 <=? x) && (x <? 92) then Some (bit_of proto (x - 72))
                     else rd f2 x
                 | None => rd f2 x
                 end) as (f3 & -> & Hl3 & Hf3).
  { destruct p as [proto|]; [|by exists f2].
    specialize (Hp proto eq_refl).
    destruct (place_loop_spec proto 4 16 f2 0) as (g1 & -> & Hg1 & Hr1); try lia.
    simpl.
    destruct (place_loop_spec proto 84 92 g1 (0 + (16 - 4))) as (g2 & -> & Hg2 & Hr2);
      try lia.
    simpl. exists g2. split; [done|]. split; [lia|].
    intros x. rewrite Hr2, Hr1. case_cmp; repeat f_equal; lia. }
  simpl.
  (* the payload *)
  destruct (place_loop_spec c 16 40 f3 0) as (g1 & -> & Hg1 & Hr1); try lia.
  simpl.
  destruct (place_loop_spec c 56 84 g1 (0 + (40 - 16))) as (g2 & -> & Hg2 & Hr2);
    try lia.
  simpl. exists g2. split; [done|]. split; [lia|].
  intros x. rewrite Hr2, Hr1, Hf3. unfold frame_bit.
  destruct p as [proto|], v as [vc|]; rewrite ?Hf2, ?Hf1;
    case_cmp; rewrite ?rd_getz by (simpl; lia); repeat f_equal; lia.
Qed.

(** C6. Protocol-over-side-channel write precedence: when both
    [proto_in] and [vc_in] are supplied to a Type A call of
    [fvhff_frame_bits], frame bits 90 and 91 are protocol bits 18 and 19
    (MSB-first unpacking of [proto_in]), whatever [vc_in] holds. *)
Theorem C6_protocol_overrides_side_channel bits_out codec2_in proto vc :
  frame_args_ok bits_out codec2_in (Some proto) (Some vc) →
  ∃ f, fvhff_frame_bits FREEDV_VHF_FRAME_A bits_out codec2_in
         (Some proto) (Some vc) = Some f ∧
       rd f 90 = UNPACK_BIT_MSBFIRST proto 18 ∧
       rd f 91 = UNPACK_BIT_MSBFIRST proto 19.
Proof.
  intros Hok. destruct (frame_bits_spec _ _ _ _ Hok) as (f & Hf & _ & Hrd).
  exists f. split; [done|].
  destruct Hok as (_ & _ & Hp & _). specialize (Hp proto eq_refl).
  rewrite !Hrd, !UNPACK_Some by lia. done.
Qed.

Lemma C6_witness :
  ∃ f, fvhff_frame_bits FREEDV_VHF_FRAME_A (replicate 96 0)
         [0; 0; 0; 0; 0; 0; 0] (Some [0; 0; 0x20]) (Some [1; 0]) = Some f ∧
       rd f 90 = UNPACK_BIT_MSBFIRST [0; 0; 0x20] 18 ∧
       rd f 91 = UNPACK_BIT_MSBFIRST [0; 0; 0x20] 19.
Proof.
  apply (C6_protocol_overrides_side_channel (replicate 96 0)
           [0; 0; 0; 0; 0; 0; 0] [0; 0; 0x20] [1; 0]).
  repeat split; simpl; try lia; intros ? [= <-]; simpl; lia.
Defined.

(** C7, as the code has it. Frame effect of a Type A call of
    [fvhff_frame_bits]: the padding bits 0..3 and 92..95 and the UW bits
    40..55 always equal the template [A_blank]; when [proto_in] is
    absent, bits 4..15 and 84..89 equal the template; bits 90..91 equal
    the template when both [proto_in] and [vc_in] are absent, and hold
    [vc_in] when only [vc_in] is supplied; nothing beyond the 96 frame
    bits is written; and when [proto_in] is supplied, bits 4..15 and
    84..91 hold protocol bits 0..11 and 12..19, whether [vc_in] is
    supplied or not -- bits 90..91 are then protocol bits 18 and 19. *)
Theorem C7_frame_effect bits_out codec2_in proto_in vc_in :
  frame_args_ok bits_out codec2_in proto_in vc_in →
  ∃ f, fvhff_frame_bits FREEDV_VHF_FRAME_A bits_out codec2_in
         proto_in vc_in = Some f ∧
       (∀ i, 0 <= i < 4 ∨ 40 <= i < 56 ∨ 92 <= i < 96 →
             rd f i = rd A_blank i) ∧
       (proto_in = None →
        ∀ i, 4 <= i < 16 ∨ 84 <= i < 90 → rd f i = rd A_blank i) ∧
       (proto_in = None → vc_in = None →
        ∀ i, 90 <= i < 92 → rd f i = rd A_blank i) ∧
       (∀ vc, proto_in = None → vc_in = Some vc →
        rd f 90 = rd vc 0 ∧ rd f 91 = rd vc 1) ∧
       (∀ i, 96 <= i → rd f i = rd bits_out i) ∧
       (∀ proto, proto_in = Some proto →
        (∀ i, 4 <= i < 16 → rd f i = UNPACK_BIT_MSBFIRST proto (i - 4)) ∧
        (∀ i, 84 <= i < 92 → rd f i = UNPACK_BIT_MSBFIRST proto (i - 72)) ∧
        rd f 90 = UNPACK_BIT_MSBFIRST proto 18 ∧
        rd f 91 = UNPACK_BIT_MSBFIRST proto 19).
Proof.
  intros Hok. destruct (frame_bits_spec _ _ _ _ Hok) as (f & Hf & _ & Hrd).
  exists f. split; [done|].
  destruct Hok as (_ & _ & Hp & Hv).
  assert (∀ proto, proto_in = Some proto →
    (∀ i, 4 <= i < 16 → rd f i = UNPACK_BIT_MSBFIRST proto (i - 4)) ∧
    (∀ i, 84 <= i < 92 → rd f i = UNPACK_BIT_MSBFIRST proto (i - 72)))
    as Hproto.
  { intros proto ->. specialize (Hp proto eq_refl). split.
    - intros i Hi. rewrite Hrd, UNPACK_Some by lia.
      unfold frame_bit. case_cmp. done.
    - intros i Hi. rewrite Hrd, UNPACK_Some by lia.
      unfold frame_bit. case_cmp. done. }
  split; [|split; [|split; [|split; [|split]]]].
  - intros i Hi. rewrite Hrd, (rd_getz A_blank) by (simpl; lia).
    unfold frame_bit. destruct proto_in, vc_in; case_cmp; done.
  - intros -> i Hi. rewrite Hrd, (rd_getz A_blank) by (simpl; lia).
    unfold frame_bit. destruct vc_in; case_cmp; done.
  - intros -> -> i Hi. rewrite Hrd, (rd_getz A_blank) by (simpl; lia).
    unfold frame_bit. case_cmp; done.
  - intros vc -> ->. specialize (Hv vc eq_refl).
    rewrite !Hrd, !(rd_getz vc) by lia. done.
  - intros i Hi. rewrite Hrd. case_cmp; done.
  - intros proto Hpr. destruct (Hproto proto Hpr) as [H1 H2].
    split; [done|]. split; [done|].
    split; [apply (H2 90); lia|apply (H2 91); lia].
Qed.

Lemma C7_witness :
  (∃ f, fvhff_frame_bits FREEDV_VHF_FRAME_A (replicate 96 0)
          [0; 0; 0; 0; 0; 0; 0] None (Some [0; 0]) = Some f ∧
        (∀ i, 0 <= i < 4 ∨ 40 <= i < 56 ∨ 92 <= i < 96 →
              rd f i = rd A_blank i) ∧
        (@None (list Z) = None →
         ∀ i, 4 <= i < 16 ∨ 84 <= i < 90 → rd f i = rd A_blank i) ∧
        (@None (list Z) = None → Some [0; 0] = None →
         ∀ i, 90 <= i < 92 → rd f i = rd A_blank i) ∧
        (∀ vc, @None (list Z) = None → Some [0; 0] = Some vc →
         rd f 90 = rd vc 0 ∧ rd f 91 = rd vc 1) ∧
        (∀ i, 96 <= i → rd f i = rd (replicate 96 0) i) ∧
        (∀ proto, None = Some proto →
         (∀ i, 4 <= i < 16 → rd f i = UNPACK_BIT_MSBFIRST proto (i - 4)) ∧
         (∀ i, 84 <= i < 92 → rd f i = UNPACK_BIT_MSBFIRST proto (i - 72)) ∧
         rd f 90 = UNPACK_BIT_MSBFIRST proto 18 ∧
         rd f 91 = UNPACK_BIT_MSBFIRST proto 19)) ∧
  (∃ f, fvhff_frame_bits FREEDV_VHF_FRAME_A (replicate 96 0)
          [0; 0; 0; 0; 0; 0; 0] (Some [0xA5; 0x0F; 0x20]) None = Some f ∧
        (∀ i, 4 <= i < 16 →
              rd f i = UNPACK_BIT_MSBFIRST [0xA5; 0x0F; 0x20] (i - 4)) ∧
        (∀ i, 84 <= i < 92 →
              rd f i = UNPACK_BIT_MSBFIRST [0xA5; 0x0F; 0x20] (i - 72)) ∧
        rd f 90 = Some 1 ∧ rd f 91 = Some 0).
Proof.
  split.
  - apply (C7_frame_effect (replicate 96 0) [0; 0; 0; 0; 0; 0; 0] None
             (Some [0; 0])).
    repeat split; simpl; try lia; intros ? [= <-]; simpl; lia.
  - destruct (C7_frame_effect (replicate 96 0) [0; 0; 0; 0; 0; 0; 0]
                (Some [0xA5; 0x0F; 0x20]) None)
      as (f & Hf & _ & _ & _ & _ & _ & Hproto).
    + repeat split; simpl; try lia; intros ? [= <-]; simpl; lia.
    + destruct (Hproto _ eq_refl) as (H1 & H2 & H90 & H91).
      exists f. split; [done|]. split; [done|]. split; [done|].
      split; [exact H90|exact H91].
Defined.

(** C7 as stated fails, twice over bits 90..91: with [proto_in] absent
    and [vc_in] supplied, these bits of the protocol range 84..91 hold
    [vc_in], not the template; and with [vc_in] absent and [proto_in]
    supplied they hold protocol bits 18 and 19, not the template. *)
Lemma C7_counterexample :
  ¬ (∀ bits_out codec2_in proto_in vc_in f,
       frame_args_ok bits_out codec2_in proto_in vc_in →
       fvhff_frame_bits FREEDV_VHF_FRAME_A bits_out codec2_in
         proto_in vc_in = Some f →
       (∀ i, 0 <= i < 4 ∨ 40 <= i < 56 ∨ 92 <= i < 96 →
             rd f i = rd A_blank i) ∧
       (proto_in = None →
        ∀ i, 4 <= i < 16 ∨ 84 <= i < 92 → rd f i = rd A_blank i) ∧
       (vc_in = None → ∀ i, 90 <= i < 92 → rd f i = rd A_blank i)) ∧
  ¬ (∀ bits_out codec2_in proto_in vc_in f,
       frame_args_ok bits_out codec2_in proto_in vc_in →
       fvhff_frame_bits FREEDV_VHF_FRAME_A bits_out codec2_in
         proto_in vc_in = Some f →
       proto_in = None →
       ∀ i, 4 <= i < 16 ∨ 84 <= i < 92 → rd f i = rd A_blank i) ∧
  ¬ (∀ bits_out codec2_in proto_in vc_in f,
       frame_args_ok bits_out codec2_in proto_in vc_in →
       fvhff_frame_bits FREEDV_VHF_FRAME_A bits_out codec2_in
         proto_in vc_in = Some f →
       vc_in = None → ∀ i, 90 <= i < 92 → rd f i = rd A_blank i).
Proof.
  split; [|split].
  - intros H.
    destruct (H (replicate 96 0) [0; 0; 0; 0; 0; 0; 0] None (Some [0; 0])
                (default [] (fvhff_frame_bits FREEDV_VHF_FRAME_A (replicate 96 0)
                               [0; 0; 0; 0; 0; 0; 0] None (Some [0; 0]))))
      as (_ & Hp & _).
    + repeat split; simpl; try lia; intros ? [= <-]; simpl; lia.
    + vm_compute. reflexivity.
    + specialize (Hp eq_refl 90 ltac:(lia)). vm_compute in Hp. discriminate.
  - intros H.
    specialize (H (replicate 96 0) [0; 0; 0; 0; 0; 0; 0] None (Some [0; 0])
                  (default [] (fvhff_frame_bits FREEDV_VHF_FRAME_A (replicate 96 0)
                                 [0; 0; 0; 0; 0; 0; 0] None (Some [0; 0])))).
    assert (frame_args_ok (replicate 96 0) [0; 0; 0; 0; 0; 0; 0] None
              (Some [0; 0])) as Hok
      by (repeat split; simpl; try lia; intros ? [= <-]; simpl; lia).
    specialize (H Hok ltac:(vm_compute; reflexivity) eq_refl 90 ltac:(lia)).
    vm_compute in H. discriminate.
  - intros H.
    specialize (H (replicate 96 0) [0; 0; 0; 0; 0; 0; 0] (Some [0; 0; 0]) None
                  (default [] (fvhff_frame_bits FREEDV_VHF_FRAME_A (replicate 96 0)
                                 [0; 0; 0; 0; 0; 0; 0] (Some [0; 0; 0]) None))).
    assert (frame_args_ok (replicate 96 0) [0; 0; 0; 0; 0; 0; 0]
              (Some [0; 0; 0]) None) as Hok
      by (repeat split; simpl; try lia; intros ? [= <-]; simpl; lia).
    specialize (H Hok ltac:(vm_compute; reflexivity) eq_refl 90 ltac:(lia)).
    vm_compute in H. discriminate.
Qed.

(** ** One iteration of the deframer loop *)

Lemma deframe_bit_cases fs t1 t2 mt bits_in i l l' :
  deframe_bit fs t1 t2 mt bits_in i l = Some l' ↔
  ∃ b ring,
    rd bits_in i = Some b ∧ wr (bits (l_def l)) (l_bitptr l) b = Some ring ∧
    let def := with_ring (l_def l) ring (next_bitptr (l_bitptr l) fs) in
    sync_check fs t2 mt def l l' ∨ sync_wait fs def l l' ∨
    nosync_hit t1 def l l' ∨ nosync_miss t1 def l l'.
Proof.
  unfold deframe_bit, sync_check, sync_wait, nosync_hit, nosync_miss, next_bitptr.
  split.
  - intros H.
    destruct (rd bits_in i) as [b|] eqn:Hb; [|done]. simpl in H.
    destruct (wr _ _ b) as [ring|] eqn:Hw; [|done]. simpl in H.
    exists b, ring. split; [done|]. split; [done|]. simpl.
    revert H.
    destruct (Z.eqb_spec (l_state l) ST_SYNC) as [Hs|Hs].
    + destruct (Z.eqb_spec (l_last_uw l + 1) fs) as [Hu|Hu].
      * intros H. left. split; [done|]. split; [done|].
        destruct (fvhff_match_uw _ t2) as [m|]; [|done]. simpl in H.
        destruct (fvhff_extract_frame _ _) as [out|]; [|done]. simpl in H.
        exists m, out. injection H as <-. done.
      * intros H. right; left. injection H as <-. done.
    + intros H. right; right.
      destruct (fvhff_match_uw _ t1) as [m|]; [|done]. simpl in H.
      revert H. destruct (Z.eqb_spec m 0) as [->|Hm]; simpl; intros H.
      * right. injection H as <-. done.
      * left. split; [done|].
        destruct (fvhff_extract_frame _ _) as [out|]; [|done]. simpl in H.
        exists m, out. injection H as <-. done.
  - intros (b & ring & Hb & Hw & H). rewrite Hb. simpl. rewrite Hw. simpl.
    simpl in H.
    destruct H as [(Hs & Hu & m & out & Hm & Ho & ->)
                  |[(Hs & Hu & ->)
                  |[(Hs & m & out & Hm & Hm0 & Ho & ->)
                  |(Hs & Hm & ->)]]].
    + destruct (Z.eqb_spec (l_state l) ST_SYNC); [|done].
      destruct (Z.eqb_spec (l_last_uw l + 1) fs); [|done].
      rewrite Hm. simpl. rewrite Ho. done.
    + destruct (Z.eqb_spec (l_state l) ST_SYNC); [|done].
      destruct (Z.eqb_spec (l_last_uw l + 1) fs); done.
    + destruct (Z.eqb_spec (l_state l) ST_SYNC); [done|].
      rewrite Hm. simpl. destruct (Z.eqb_spec m 0); [done|]. simpl.
      rewrite Ho. done.
    + destruct (Z.eqb_spec (l_state l) ST_SYNC); [done|].
      rewrite Hm. done.
Qed.

(** C9. Outputs untouched without extraction: whatever the deframer
    state and the input batch, a call of [fvhff_deframe_bits] that
    returns 0 leaves the three output arrays exactly as they were. *)
Theorem C9_outputs_untouched_without_extraction def o bits_in def' o' :
  fvhff_deframe_bits def o bits_in = Some (def', o', 0) → o' = o.
Proof.
  unfold fvhff_deframe_bits, for_range.
  destruct (ftype def =? FREEDV_VHF_FRAME_A); [|congruence].
  destruct (for_loop _ _ _ _) as [l|] eqn:Hrun; [|done]. simpl.
  intros [= _ <- Hflag].
  apply (for_loop_inv
    (λ _ l, l_extracted_frame l = 1 ∨ l_extracted_frame l = 0 ∧ l_out l = o))
    in Hrun; simpl.
  - destruct Hrun as [?|[_ ?]]; [congruence|done].
  - by right.
  - intros j t t' _ Ht Hstep. apply deframe_bit_cases in Hstep.
    destruct Hstep as (b & ring & _ & _ & H). simpl in H.
    destruct H as [(_ & _ & m & out & _ & _ & ->)
                  |[(_ & _ & ->)
                  |[(_ & m & out & _ & _ & _ & ->)
                  |(_ & _ & ->)]]]; simpl; auto.
Qed.

(** ** The extractor: padding bits *)

Lemma low_nibble_or old b s :
  Z.land old 15 = 0 → 4 <= s →
  Z.land (u8 (Z.lor old (Z.shiftl (Z.land b 1) s))) 15 = 0.
Proof.
  intros Hold Hs. unfold u8. apply Z.bits_inj'. intros n Hn.
  rewrite Z.land_spec, Z.bits_0.
  destruct (Z.lt_ge_cases n 4) as [Hlt|Hge].
  - change 256 with (2 ^ 8). rewrite Z.mod_pow2_bits_low by lia.
    rewrite Z.lor_spec, Z.shiftl_spec, (Z.testbit_neg_r _ (n - s)) by lia.
    apply (f_equal (λ z, Z.testbit z n)) in Hold.
    rewrite Z.land_spec, Z.bits_0 in Hold.
    change 15 with (Z.ones 4) in *.
    rewrite Z.ones_spec_low in * by lia.
    rewrite andb_true_r in Hold. rewrite Hold. done.
  - change 15 with (Z.ones 4). rewrite Z.ones_spec_high by lia.
    apply andb_false_r.
Qed.

(** A packing loop that reaches byte [m] only with bit positions 0..3
    (shifts 7..4) keeps the low nibble of that byte clear. *)
Lemma pack_loop_low_nibble ring fs lo hi m out i0 out' i' :
  for_range lo hi (pack_bit ring fs) (out, i0) = Some (out', i') →
  (∀ k, lo <= k < hi → Z.shiftr k 3 = m → Z.land k 7 <= 3) →
  (∃ x, rd out m = Some x ∧ Z.land x 15 = 0) →
  ∃ x, rd out' m = Some x ∧ Z.land x 15 = 0.
Proof.
  unfold for_range. intros Hrun Hk H0.
  apply (for_loop_inv (λ _ s, ∃ x, rd (fst s) m = Some x ∧ Z.land x 15 = 0))
    in Hrun; [done|done|].
  intros j [t it] [t' it'] Hj (x & Hx & Hlow) Hstep. simpl in *.
  destruct (rd ring it) as [b|]; [|done]. simpl in Hstep.
  destruct (rd t (Z.shiftr j 3)) as [old|] eqn:Hold; [|done]. simpl in Hstep.
  destruct (wr t _ _) as [t2|] eqn:Hw; [|done]. simpl in Hstep.
  injection Hstep as <- <-.
  apply wr_Some in Hw as [Hr ->]. rewrite rd_insert by done.
  destruct (Z.eqb_spec m (Z.shiftr j 3)) as [->|Hne]; [|eauto].
  eexists. split; [done|]. rewrite Hold in Hx. injection Hx as ->.
  apply low_nibble_or; [done|]. specialize (Hk j). lia.
Qed.

Lemma shiftr3_range k m : Z.shiftr k 3 = m → 8 * m <= k < 8 * m + 8.
Proof.
  rewrite Z.shiftr_div_pow2 by lia. change (2 ^ 3) with 8.
  intros <-. pose proof (Z.div_mod k 8). pose proof (Z.mod_pos_bound k 8). lia.
Qed.

Lemma land7_sub k m : 8 * m <= k < 8 * m + 8 → Z.land k 7 = k - 8 * m.
Proof.
  intros H. change 7 with (Z.ones 3). rewrite Z.land_ones by lia.
  change (2 ^ 3) with 8. symmetry. apply (Z.mod_unique_pos k 8 m); lia.
Qed.

Lemma memset_rd a v n a' x :
  memset a v n = Some a' →
  rd a' x = if (0 <=? x) && (x <? Z.of_nat n) then Some v else rd a x.
Proof.
  intros [Hn ->]%memset_Some. unfold rd.
  rewrite length_app, length_replicate, length_drop.
  replace (n + (length a - n))%nat with (length a) by lia.
  case_cmp; try done.
  - rewrite lookup_app_l by (rewrite length_replicate; lia).
    apply lookup_replicate_2. lia.
  - rewrite lookup_app_r by (rewrite length_replicate; lia).
    rewrite length_replicate, lookup_drop. f_equal. lia.
Qed.

(** C10. Packed-output padding bits are zero: when
    [fvhff_extract_frame] runs for Type A, the four low-order bits of
    [codec2_out[6]] are zero, and when [proto_out] is supplied the four
    low-order bits of [proto_out[2]] are zero. *)
Theorem C10_packed_padding_bits_zero def o o' :
  ftype def = FREEDV_VHF_FRAME_A →
  fvhff_extract_frame def o = Some o' →
  (∃ x, rd (codec2_out o') 6 = Some x ∧ Z.land x 15 = 0) ∧
  (is_Some (proto_out o) →
   ∃ p x, proto_out o' = Some p ∧ rd p 2 = Some x ∧ Z.land x 15 = 0).
Proof.
  intros Hty. unfold fvhff_extract_frame. rewrite Hty, Z.eqb_refl.
  destruct (memset (codec2_out o) 0 7) as [c0|] eqn:Hc0; [|done]. simpl.
  destruct (for_range 0 24 _ _) as [[c1 i1]|] eqn:Hc1; [|done]. simpl.
  destruct (for_range 24 52 _ _) as [[c2 i2]|] eqn:Hc2; [|done]. simpl.
  destruct (match vc_out o with Some _ => _ | None => _ end) as [vc'|]; [|done].
  simpl.
  destruct (match proto_out o with Some _ => _ | None => _ end) as [p'|] eqn:Hp;
    [|done].
  simpl. intros [= <-]. simpl. split.
  - eapply pack_loop_low_nibble; [apply Hc2| |].
    { intros k Hk Hm%shiftr3_range. rewrite (land7_sub k 6); lia. }
    eapply pack_loop_low_nibble; [apply Hc1| |].
    { intros k Hk Hm%shiftr3_range. lia. }
    exists 0. split; [|done]. by rewrite (memset_rd _ _ _ _ _ Hc0).
  - intros [p Hpo]. rewrite Hpo in Hp.
    destruct (memset p 0 3) as [p0|] eqn:Hp0; [|done]. simpl in Hp.
    destruct (for_range 0 12 _ _) as [[p1 j1]|] eqn:Hp1; [|done]. simpl in Hp.
    destruct (for_range 12 20 _ _) as [[p2 j2]|] eqn:Hp2; [|done]. simpl in Hp.
    injection Hp as <-. exists p2.
    destruct (pack_loop_low_nibble _ _ _ _ 2 _ _ _ _ Hp2) as (x & Hx & Hlow).
    { intros k Hk Hm%shiftr3_range. rewrite (land7_sub k 2); lia. }
    { eapply pack_loop_low_nibble; [apply Hp1| |].
      { intros k Hk Hm%shiftr3_range. lia. }
      exists 0. split; [|done]. by rewrite (memset_rd _ _ _ _ _ Hp0). }
    exists x. done.
Qed.

(** ** Walking the ring *)

Ltac zmod := Z.div_mod_to_equations; lia.

Lemma ring_start_mod c off :
  0 <= c < 96 → 0 <= off < 96 → ring_start c off 96 = (c + off) mod 96.
Proof. intros. unfold ring_start. case_cmp; zmod. Qed.

Lemma ring_next_mod x : 0 <= x < 96 → ring_next x 96 = (x + 1) mod 96.
Proof. intros. unfold ring_next. case_cmp; zmod. Qed.

Lemma next_bitptr_mod x : 0 <= x < 96 → next_bitptr x 96 = (x + 1) mod 96.
Proof. intros. unfold next_bitptr. case_cmp; zmod. Qed.

Lemma rd_overwrite n f a x :
  (n ≤ length a)%nat →
  rd (overwrite n f a) x =
  if (0 <=? x) && (x <? Z.of_nat n) then Some (f x) else rd a x.
Proof.
  intros Hn. unfold rd, overwrite.
  rewrite length_app, length_map, length_seqZ, length_drop.
  replace (Z.to_nat (Z.of_nat n) + (length a - n))%nat with (length a) by lia.
  case_cmp; try done.
  - rewrite lookup_app_l by (rewrite length_map, length_seqZ; lia).
    rewrite list_lookup_fmap, lookup_seqZ_lt by lia. simpl. f_equal. f_equal. lia.
  - rewrite lookup_app_r by (rewrite length_map, length_seqZ; lia).
    rewrite length_map, length_seqZ, lookup_drop. f_equal. lia.
Qed.

Lemma length_overwrite n f a :
  (n ≤ length a)%nat → length (overwrite n f a) = length a.
Proof.
  intros. unfold overwrite.
  rewrite length_app, length_map, length_seqZ, length_drop. lia.
Qed.

(** ** The matcher *)

Lemma uw_errors_S ring cursor n :
  uw_errors ring cursor (S n) =
  uw_errors ring cursor n +
  (if ring_bit ring cursor (40 + Z.of_nat n) =? getz A_uw (Z.of_nat n)
   then 0 else 1).
Proof. done. Qed.

Lemma match_uw_spec def tol :
  ring_ok def →
  fvhff_match_uw def tol =
  Some (if uw_errors (bits def) (bitptr def) 16 <=? tol then 1 else 0).
Proof.
  intros (Hty & Hfs & Hlen & Hptr). unfold fvhff_match_uw, for_range.
  rewrite Hty, Z.eqb_refl, Hfs, ring_start_mod by lia.
  change (Z.to_nat (16 - 0)) with 16%nat.
  pose (g := λ k : nat, (uw_errors (bits def) (bitptr def) k,
                         (bitptr def + 40 + Z.of_nat k) mod 96)).
  replace (0, (bitptr def + 40) mod 96) with (g O)
    by (unfold g; do 2 f_equal; lia).
  rewrite (for_loop_trace g); [done|].
  intros k Hk. unfold g, match_bit.
  rewrite (rd_getz (bits def)) by (rewrite Hlen; zmod). simpl.
  rewrite (rd_getz A_uw) by (simpl; lia). simpl.
  rewrite ring_next_mod by zmod. f_equal. f_equal.
  - rewrite uw_errors_S.
    unfold ring_bit. replace (bitptr def + (40 + Z.of_nat k))
      with (bitptr def + 40 + Z.of_nat k) by lia.
    replace (0 + Z.of_nat k) with (Z.of_nat k) by lia.
    destruct (_ =? _); simpl; lia.
  - rewrite Zplus_mod_idemp_l. f_equal. lia.
Qed.

(** ** The extractor *)

Lemma packed_S src m n :
  packed src m (S n) =
  if Z.shiftr (Z.of_nat n) 3 =? m
  then u8 (Z.lor (packed src m n)
             (Z.shiftl (Z.land (src (Z.of_nat n)) 1) (7 - Z.land (Z.of_nat n) 7)))
  else packed src m n.
Proof. done. Qed.

Lemma pack_loop_spec ring src lo hi out nbytes start :
  length ring = 96%nat → 0 <= lo <= hi → hi <= 8 * nbytes →
  nbytes <= Z.of_nat (length out) → 0 <= start < 96 →
  (∀ k, lo <= k < hi → src k = getz ring ((start + (k - lo)) mod 96)) →
  (∀ x, 0 <= x < nbytes → rd out x = Some (packed src x (Z.to_nat lo))) →
  ∃ out', for_range lo hi (pack_bit ring 96) (out, start) =
            Some (out', (start + (hi - lo)) mod 96) ∧
          length out' = length out ∧
          ∀ x, rd out' x = if (0 <=? x) && (x <? nbytes)
                           then Some (packed src x (Z.to_nat hi)) else rd out x.
Proof.
  intros Hring Hlo Hhi Hn Hstart Hsrc Hout. unfold for_range.
  destruct (for_loop_total (pack_bit ring 96)
    (λ j s, length (fst s) = length out ∧ snd s = (start + (j - lo)) mod 96 ∧
            ∀ x, rd (fst s) x = if (0 <=? x) && (x <? nbytes)
                                then Some (packed src x (Z.to_nat j)) else rd out x)
    (Z.to_nat (hi - lo)) lo (out, start))
    as ([t it] & Hrun & Hlen & Hit & Ht).
  - simpl. split; [done|]. split; [zmod|].
    intros x. case_cmp; [apply Hout; lia|done..].
  - intros j [t it] Hj (Hlen & Hit & Ht). simpl in *.
    assert (0 <= Z.shiftr j 3 < nbytes) as Hbyte.
    { rewrite Z.shiftr_div_pow2 by lia. change (2 ^ 3) with 8. zmod. }
    rewrite (rd_getz ring) by (rewrite Hring; zmod). simpl.
    rewrite Ht. replace ((0 <=? Z.shiftr j 3) && (Z.shiftr j 3 <? nbytes)) with true
      by (symmetry; apply andb_true_iff; lia).
    simpl. rewrite wr_lt by lia. simpl. eexists. split; [done|]. simpl.
    rewrite length_insert. split; [done|]. split.
    { rewrite Hit, ring_next_mod by zmod. rewrite Zplus_mod_idemp_l.
      f_equal. lia. }
    intros x. rewrite rd_insert by lia. rewrite Ht.
    replace (Z.to_nat (j + 1)) with (S (Z.to_nat j)) by lia.
    rewrite packed_S, Z2Nat.id by lia. rewrite (Z.eqb_sym (Z.shiftr j 3) x).
    destruct (Z.eqb_spec x (Z.shiftr j 3)) as [->|Hne]; [|done].
    replace ((0 <=? Z.shiftr j 3) && (Z.shiftr j 3 <? nbytes)) with true
      by (symmetry; apply andb_true_iff; lia).
    rewrite Hsrc, Hit by lia. done.
  - simpl in *. exists t.
    replace (lo + Z.of_nat (Z.to_nat (hi - lo))) with hi in * by lia.
    rewrite Hrun, Hit. done.
Qed.

Lemma memset_ok a v n :
  (n ≤ length a)%nat →
  ∃ a', memset a v n = Some a' ∧ length a' = length a.
Proof.
  intros Hn. eexists. split; [apply memset_Some; done|].
  rewrite length_app, length_replicate, length_drop. lia.
Qed.

(** Packing the two ranges of a field into a cleared array. *)
Lemma pack_field_spec ring cursor (a : list Z) nbytes off n1 n2 o1 o2 :
  length ring = 96%nat → 0 <= cursor < 96 →
  (nbytes ≤ length a)%nat → 0 <= n1 <= n2 → n2 <= 8 * Z.of_nat nbytes →
  0 <= o1 < 96 → 0 <= o2 < 96 →
  (∀ k, 0 <= k < n1 → off k = o1 + k) →
  (∀ k, n1 <= k < n2 → off k = o2 + (k - n1)) →
  ∃ a0 s1 s2,
    memset a 0 nbytes = Some a0 ∧
    for_range 0 n1 (pack_bit ring 96) (a0, ring_start cursor o1 96) = Some s1 ∧
    for_range n1 n2 (pack_bit ring 96) (fst s1, ring_start cursor o2 96) = Some s2 ∧
    fst s2 = overwrite nbytes
               (λ m, packed (λ k, ring_bit ring cursor (off k)) m (Z.to_nat n2)) a.
Proof.
  intros Hring Hc Ha Hn1 Hn2 Ho1 Ho2 Hoff1 Hoff2.
  destruct (memset_ok a 0 nbytes Ha) as (a0 & Ha0 & Hl0).
  pose (src := λ k, ring_bit ring cursor (off k)).
  destruct (pack_loop_spec ring src 0 n1 a0 (Z.of_nat nbytes)
              (ring_start cursor o1 96))
    as (a1 & Hrun1 & Hl1 & Hrd1); try lia.
  { rewrite ring_start_mod by lia. zmod. }
  { intros k Hk. unfold src, ring_bit. rewrite ring_start_mod, Hoff1 by lia.
    rewrite Zplus_mod_idemp_l. f_equal. f_equal. lia. }
  { intros x Hx. rewrite (memset_rd _ _ _ _ _ Ha0). case_cmp. done. }
  destruct (pack_loop_spec ring src n1 n2 a1 (Z.of_nat nbytes)
              (ring_start cursor o2 96))
    as (a2 & Hrun2 & Hl2 & Hrd2); try lia.
  { rewrite ring_start_mod by lia. zmod. }
  { intros k Hk. unfold src, ring_bit. rewrite ring_start_mod, Hoff2 by lia.
    rewrite Zplus_mod_idemp_l. f_equal. f_equal. lia. }
  { intros x Hx. rewrite Hrd1. case_cmp. done. }
  exists a0, (a1, (ring_start cursor o1 96 + (n1 - 0)) mod 96),
    (a2, (ring_start cursor o2 96 + (n2 - n1)) mod 96).
  repeat split; try done. simpl.
  apply rd_length_ext; [rewrite length_overwrite by done; lia|].
  intros x. rewrite Hrd2, Hrd1, (memset_rd _ _ _ _ _ Ha0), rd_overwrite by done.
  case_cmp; done.
Qed.

Lemma extract_spec def o :
  ring_ok def → outputs_ok o →
  vc_out o = None ∨ bitptr def ≠ 5 →
  fvhff_extract_frame def o = Some (extracted (bits def) (bitptr def) o).
Proof.
  intros (Hty & Hfs & Hlen & Hptr) (Hc & Hp & Hv) Hvc.
  unfold fvhff_extract_frame. rewrite Hty, Z.eqb_refl, Hfs.
  destruct (pack_field_spec (bits def) (bitptr def) (codec2_out o) 7
              payload_off 24 52 16 56)
    as (c0 & s1 & s2 & Hm & Hs1 & Hs2 & Hcodec); try done; try lia;
    try (intros k Hk; unfold payload_off; case_cmp; first [done|lia]).
  rewrite Hm. simpl. rewrite Hs1. simpl. rewrite Hs2. simpl.
  assert (match vc_out o with
          | Some vc =>
              v ← rd (bits def) (ring_start (bitptr def) 90 96);
              vc ← wr vc 0 v;
              v ← rd (bits def) (ring_start (bitptr def) 90 96 + 1);
              vc ← wr vc 1 v; Some (Some vc)
          | None => Some None
          end = Some (overwrite 2 (λ m, ring_bit (bits def) (bitptr def) (90 + m))
                        <$> vc_out o)) as ->.
  { destruct (vc_out o) as [vc|] eqn:Evc; [|done].
    destruct Hvc as [?|Hvc]; [done|]. specialize (Hv vc eq_refl).
    rewrite ring_start_mod by lia.
    rewrite !(rd_getz (bits def)) by (rewrite Hlen; zmod). simpl.
    rewrite wr_lt by lia. simpl. rewrite wr_lt by (rewrite length_insert; lia).
    simpl. f_equal. f_equal.
    apply rd_length_ext; [rewrite !length_insert, length_overwrite; lia|].
    intros x. rewrite !rd_insert, rd_overwrite by (rewrite ?length_insert; lia).
    unfold ring_bit. case_cmp; try done; do 3 f_equal; zmod. }
  simpl.
  assert (match proto_out o with
          | Some proto =>
              proto ← memset proto 0 3;
              s ← for_range 0 12 (pack_bit (bits def) 96)
                    (proto, ring_start (bitptr def) 4 96);
              s ← for_range 12 20 (pack_bit (bits def) 96)
                    (fst s, ring_start (bitptr def) 84 96);
              Some (Some (fst s))
          | None => Some None
          end = Some (overwrite 3
                        (λ m, packed (λ k, ring_bit (bits def) (bitptr def)
                                             (proto_off k)) m 20)
                        <$> proto_out o)) as ->.
  { destruct (proto_out o) as [proto|] eqn:Ep; [|done]. specialize (Hp proto eq_refl).
    destruct (pack_field_spec (bits def) (bitptr def) proto 3
                proto_off 12 20 4 84)
      as (p0 & t1 & t2 & Hm' & Ht1 & Ht2 & Hproto); try done; try lia;
      try (intros k Hk; unfold proto_off; case_cmp; first [done|lia]).
    rewrite Hm'. simpl. rewrite Ht1. simpl. rewrite Ht2. simpl.
    rewrite Hproto. done. }
  simpl. unfold extracted. rewrite Hcodec. done.
Qed.

(** With a side-channel destination and the cursor at 5, the second
    side-channel bit is read at index 96, past the end of the ring. *)
Lemma extract_fault def o :
  ring_ok def → outputs_ok o → is_Some (vc_out o) → bitptr def = 5 →
  fvhff_extract_frame def o = None.
Proof.
  intros (Hty & Hfs & Hlen & Hptr) (Hc & Hp & Hv) [vc Hvc] H5.
  unfold fvhff_extract_frame. rewrite Hty, Z.eqb_refl, Hfs.
  destruct (pack_field_spec (bits def) (bitptr def) (codec2_out o) 7
              payload_off 24 52 16 56)
    as (c0 & s1 & s2 & Hm & Hs1 & Hs2 & Hcodec); try done; try lia;
    try (intros k Hk; unfold payload_off; case_cmp; first [done|lia]).
  rewrite Hm. simpl. rewrite Hs1. simpl. rewrite Hs2. simpl. rewrite Hvc, H5.
  change (ring_start 5 90 96) with 95.
  rewrite (rd_getz (bits def) 95) by lia. simpl.
  rewrite wr_lt by (specialize (Hv vc Hvc); lia). simpl.
  replace (rd (bits def) (95 + 1)) with (@None Z); [done|].
  symmetry. apply rd_None. lia.
Qed.

(** ** The deframer between and during calls *)

Lemma with_ring_ok def ring ptr :
  ring_ok def → length ring = 96%nat → 0 <= ptr < 96 →
  ring_ok (with_ring def ring ptr).
Proof. intros (? & ? & ? & ?) ? ?. unfold ring_ok. simpl. tauto. Qed.

Lemma match_uw_bit def tol m :
  ring_ok def → fvhff_match_uw def tol = Some m → m = 0 ∨ m = 1.
Proof.
  intros Hok. rewrite match_uw_spec by done.
  destruct (_ <=? _); intros [= <-]; auto.
Qed.

Lemma deframe_bit_ok bits_in i l l' :
  locals_ok l →
  deframe_bit 96 2 1 2 bits_in i l = Some l' →
  locals_ok l' ∧
  bitptr (l_def l') = (bitptr (l_def l) + 1) mod 96 ∧
  ftype (l_def l') = ftype (l_def l) ∧
  frame_size (l_def l') = frame_size (l_def l).
Proof.
  intros (Hring & Hptr & Hlu & Hmc & Hst) Hstep.
  apply deframe_bit_cases in Hstep as (b & ring & _ & Hw & H).
  apply wr_Some in Hw as [Hr ->]. simpl in H.
  assert (Hring' := Hring). destruct Hring' as (Hty & Hfs & Hlen & Hbp).
  rewrite Hptr in *. rewrite next_bitptr_mod in H by lia.
  set (def := with_ring _ _ _) in H.
  assert (ring_ok def) as Hdef.
  { apply with_ring_ok; [done|by rewrite length_insert|zmod]. }
  destruct H as [(Hs & Hu & m & out & Hm & Ho & ->)
                |[(Hs & Hu & ->)
                |[(Hs & m & out & Hm & Hm0 & Ho & ->)
                |(Hs & Hm & ->)]]];
    (split; [unfold locals_ok; simpl; split; [exact Hdef|split; [done|]]
            |simpl; done]).
  - assert (l_miss_cnt l <= 2) by (destruct Hst as [Hn|[_ ?]]; [by rewrite Hn in Hs|done]).
    apply (match_uw_bit _ _ _ Hdef) in Hm.
    destruct Hm as [-> | ->]; simpl; (split; [lia|]); (split; [lia|]);
      case_cmp; auto; right; (split; [done|lia]).
  - assert (l_miss_cnt l <= 2) by (destruct Hst as [Hn|[_ ?]]; [by rewrite Hn in Hs|done]).
    repeat split; try lia; auto.
  - repeat split; try lia; right; (split; [done|lia]).
  - repeat split; try lia; done.
Qed.

Lemma deframe_entry_ok def o : deframer_ok def → locals_ok (deframe_entry def o).
Proof.
  intros (? & ? & ? & ? & ?). unfold locals_ok, deframe_entry. simpl. tauto.
Qed.

(** During a call the cursor is the number of bits taken so far, and
    the locals stay in range. *)
Lemma deframe_loop_ok n def o bits_in l :
  deframer_ok def →
  deframe_loop n def o bits_in = Some l →
  locals_ok l ∧ bitptr (l_def l) = Z.of_nat n mod 96.
Proof.
  intros Hok Hrun. assert (Hok' := Hok).
  destruct Hok' as ((_ & Hfs & _ & _) & Hb0 & _).
  unfold deframe_loop in Hrun. rewrite Hfs in Hrun.
  apply (for_loop_inv (λ j l, locals_ok l ∧ bitptr (l_def l) = j mod 96))
    in Hrun; [done| |].
  - split; [by apply deframe_entry_ok|done].
  - intros j t t' Hj [Ht Hp] Hstep.
    destruct (deframe_bit_ok _ _ _ _ Ht Hstep) as (Ht' & Hp' & _).
    split; [done|]. rewrite Hp', Hp. zmod.
Qed.

Lemma deframe_bits_ok def o bits_in def' o' r :
  deframer_ok def →
  fvhff_deframe_bits def o bits_in = Some (def', o', r) →
  deframer_ok def'.
Proof.
  intros Hok. assert (Hok' := Hok).
  destruct Hok' as ((Hty & Hfs & _ & _) & _).
  unfold fvhff_deframe_bits, for_range. rewrite Hty, Z.eqb_refl, Hfs.
  destruct (for_loop _ _ _ _) as [l|] eqn:Hrun; [|done]. simpl.
  intros [= <- <- <-].
  assert (deframe_loop 96 def o bits_in = Some l) as Hloop
    by (unfold deframe_loop; by rewrite Hfs).
  destruct (deframe_loop_ok _ _ _ _ _ Hok Hloop)
    as (((Hty' & Hfs' & Hlen' & Hbp') & Hptr & Hlu & Hmc & Hst) & Hcur).
  unfold deframer_ok, ring_ok. simpl. rewrite Hcur.
  repeat split; try done; lia.
Qed.

Lemma reachable_inv def : reachable def → deframer_ok def.
Proof.
  induction 1 as [frame_type mem def Hmem Hc|def o bits_in def' o' r _ IH Hcall].
  - unfold fvhff_create_deframer in Hc.
    destruct (Z.eqb_spec frame_type FREEDV_VHF_FRAME_A) as [->|]; [|done].
    injection Hc as <-. unfold deframer_ok, ring_ok. simpl.
    repeat split; try done; try lia; by left.
  - eapply deframe_bits_ok; eauto.
Qed.

Lemma sync_states_differ : ST_NOSYNC ≠ ST_SYNC.
Proof. done. Qed.

(** C5, as the code has it. Extractions per call: on every reachable
    deframer and for every input batch, at most two of the iterations
    of one call of [fvhff_deframe_bits] run the extractor, and at most
    one does unless the deframer enters the call Synchronized with two
    misses counted and a countdown under way (the check that drops the
    lock may then be followed, in the same call, by a new lock). *)
Theorem C5_extractions_per_call def o bits_in n :
  reachable def →
  extraction_events def o bits_in = Some n →
  (n ≤ 2)%nat ∧
  (state def = ST_NOSYNC ∨ miss_cnt def < 2 ∨ last_uw def = 0 → (n ≤ 1)%nat).
Proof.
  intros Hr. apply reachable_inv in Hr. assert (Hok := Hr).
  destruct Hr as ((Hty & Hfs & Hlen & Hbp) & Hb0 & Hlu & Hmc & Hst).
  unfold extraction_events. rewrite Hty, Z.eqb_refl, Hfs.
  change (Z.to_nat 96) with 96%nat.
  destruct (deframe_loop 96 def o bits_in) as [l|] eqn:Hrun; [|done].
  simpl. intros [= <-].
  unfold deframe_loop in Hrun. rewrite Hfs in Hrun.
  apply (for_loop_inv (λ j l,
    locals_ok l ∧
    ((l_events l = 0%nat ∧ l_state l = state def ∧
      l_miss_cnt l = miss_cnt def ∧
      (state def = ST_SYNC → l_last_uw l = last_uw def + j))
     ∨ (l_events l = 1%nat ∧ l_state l = ST_SYNC ∧ l_last_uw l < j)
     ∨ (l_events l = 1%nat ∧ l_state l = ST_NOSYNC ∧ state def = ST_SYNC ∧
        2 <= miss_cnt def ∧ 96 - last_uw def <= j)
     ∨ (l_events l = 2%nat ∧ l_state l = ST_SYNC ∧ l_last_uw l < j ∧
        state def = ST_SYNC ∧ 2 <= miss_cnt def ∧ 96 - last_uw def < j)))) in Hrun.
  - destruct Hrun as [_ H]. pose proof sync_states_differ.
    simpl in H. split; [lia|]. intros Hc.
    destruct H as [(-> & _)|[(-> & _)|[(-> & _ & ? & ? & ?)|(-> & _ & _ & ? & ? & ?)]]];
      try lia; destruct Hc as [?|[?|?]]; (congruence || lia).
  - split; [by apply deframe_entry_ok|]. left. simpl. repeat split; lia.
  - intros j t t' Hj [Ht Hq] Hstep.
    destruct (deframe_bit_ok _ _ _ _ Ht Hstep) as (Ht' & _).
    split; [done|]. clear Ht'.
    destruct Ht as (_ & _ & Htlu & _).
    pose proof sync_states_differ.
    apply deframe_bit_cases in Hstep as (b & ring & _ & _ & Hcase). simpl in Hcase.
    destruct Hcase as [(Hs & Hu & m & out & _ & _ & ->)
                      |[(Hs & Hu & ->)
                      |[(Hs & m & out & _ & _ & _ & ->)
                      |(Hs & _ & ->)]]]; simpl.
    all: destruct Hq as [(He & Hts & Htm & Htu)
                        |[(He & Hts & Htu)
                        |[(He & Hts & Hd & Hdm & Hdu)
                        |(He & Hts & Htu & Hd & Hdm & Hdu)]]];
      unfold ST_SYNC, ST_NOSYNC in *; case_cmp; lia.
Qed.

(** ** A call, bit by bit *)

Lemma length_ring_after ring0 bits_in k :
  length ring0 = 96%nat → (k ≤ 96)%nat → (k ≤ length bits_in)%nat →
  length (ring_after ring0 bits_in k) = 96%nat.
Proof.
  intros. unfold ring_after. rewrite length_app, length_take, length_drop. lia.
Qed.

Lemma ring_after_step ring0 bits_in k :
  length ring0 = 96%nat → (k < 96)%nat → (k < length bits_in)%nat →
  wr (ring_after ring0 bits_in k) (Z.of_nat k) (getz bits_in (Z.of_nat k)) =
  Some (ring_after ring0 bits_in (S k)).
Proof.
  intros Hr Hk Hb. rewrite wr_lt by (rewrite length_ring_after; lia).
  f_equal. unfold ring_after. rewrite Nat2Z.id.
  destruct (lookup_lt_is_Some_2 bits_in k Hb) as [b Hbk].
  destruct (lookup_lt_is_Some_2 ring0 k) as [r Hrk]; [lia|].
  rewrite insert_app_r_alt by (rewrite length_take; lia).
  rewrite length_take, Nat.min_l, Nat.sub_diag by lia.
  rewrite (drop_S _ _ _ Hrk). simpl.
  rewrite (take_S_r _ _ _ Hbk), <- app_assoc. simpl.
  do 2 f_equal. unfold getz, rd. rewrite Nat2Z.id, Hbk.
  case_cmp; done.
Qed.

Lemma ring_after_all ring0 f :
  length ring0 = 96%nat → length f = 96%nat → ring_after ring0 f 96 = f.
Proof.
  intros H0 Hf. unfold ring_after.
  rewrite take_ge, drop_ge, app_nil_r by lia. done.
Qed.

Lemma waiting_entry def o bits_in :
  bitptr def = 0 → waiting def o bits_in 0 = deframe_entry def o.
Proof.
  intros Hb. unfold waiting, deframe_entry, ring_after. simpl. rewrite drop_0.
  destruct def; simpl in *. subst. f_equal. destruct (_ =? _); lia.
Qed.

(** The first [k] iterations of a call do nothing but store the bits
    and count, as long as no check of the UW is due (Synchronized) and
    no UW is in sight (Unsynchronized). *)
Lemma quiet_run def o bits_in k :
  deframer_ok def → (k ≤ 95)%nat → (k ≤ length bits_in)%nat →
  (state def = ST_SYNC → last_uw def + Z.of_nat k < 96) →
  (state def = ST_NOSYNC →
   ∀ j, (1 ≤ j ≤ k)%nat →
        2 < uw_errors (ring_after (bits def) bits_in j) (Z.of_nat j) 16) →
  deframe_loop k def o bits_in = Some (waiting def o bits_in k).
Proof.
  intros Hok Hk Hlen Hsync Hnosync. assert (Hok' := Hok).
  destruct Hok' as ((Hty & Hfs & Hring & Hbp) & Hb0 & Hlu & Hmc & Hst).
  unfold deframe_loop. rewrite Hfs, <- (waiting_entry def o bits_in Hb0).
  apply for_loop_trace. intros j Hj. apply deframe_bit_cases.
  exists (getz bits_in (Z.of_nat j)), (ring_after (bits def) bits_in (S j)).
  split; [apply rd_getz; lia|].
  split; [apply ring_after_step; lia|].
  simpl. unfold next_bitptr.
  replace (Z.of_nat j + 1 >=? 96) with false by (symmetry; case_cmp; done).
  replace (Z.of_nat j + 1) with (Z.of_nat (S j)) by lia.
  destruct Hst as [Hs|[Hs _]].
  - right; right; right. unfold nosync_miss. simpl. rewrite Hs.
    split; [done|]. split.
    + rewrite match_uw_spec.
      * cbn [bits bitptr with_ring].
        specialize (Hnosync Hs (S j) ltac:(lia)).
        case_cmp. done.
      * apply with_ring_ok; [|apply length_ring_after; lia|lia].
        apply with_ring_ok; [apply (proj1 Hok)|apply length_ring_after; lia|lia].
    + unfold waiting. simpl. rewrite Hs. done.
  - right; left. unfold sync_wait. simpl. rewrite Hs. simpl.
    specialize (Hsync Hs). split; [done|]. split; [lia|].
    unfold waiting. simpl. rewrite Hs. simpl. f_equal. lia.
Qed.

Lemma deframe_bits_last def o bits_in l95 l96 :
  ftype def = FREEDV_VHF_FRAME_A → frame_size def = 96 →
  deframe_loop 95 def o bits_in = Some l95 →
  deframe_bit 96 2 1 2 bits_in 95 l95 = Some l96 →
  fvhff_deframe_bits def o bits_in =
  Some (deframe_exit l96, l_out l96, l_extracted_frame l96).
Proof.
  intros Hty Hfs H95 H96. unfold fvhff_deframe_bits, for_range.
  rewrite Hty, Z.eqb_refl, Hfs. change (Z.to_nat (96 - 0)) with 96%nat.
  rewrite for_loop_snoc. unfold deframe_loop in H95. rewrite Hfs in H95.
  rewrite H95. change (0 + Z.of_nat 95) with 95.
  change (Some l95 ≫= deframe_bit 96 2 1 2 bits_in 95)
    with (deframe_bit 96 2 1 2 bits_in 95 l95).
  rewrite H96. done.
Qed.

(** The struct once a whole frame [f] has been stored from cursor 0. *)
Lemma last_bit_ok def o f :
  deframer_ok def → length f = 96%nat →
  rd f 95 = Some (getz f 95) ∧
  wr (bits (l_def (waiting def o f 95))) (l_bitptr (waiting def o f 95))
     (getz f 95) = Some f ∧
  ring_ok (with_ring def f 0).
Proof.
  intros Hok Hf. assert (Hok' := Hok).
  destruct Hok' as ((Hty & Hfs & Hring & Hbp) & _).
  split; [apply rd_getz; lia|]. split.
  - simpl. rewrite <- (ring_after_all (bits def) f) at 3 by done.
    apply (ring_after_step (bits def) f 95); lia.
  - apply with_ring_ok; [apply (proj1 Hok)|done|lia].
Qed.

Lemma uw_absent_upto_spec ring0 bits_in n j :
  length ring0 = 96%nat → (n ≤ 95)%nat → (n ≤ length bits_in)%nat →
  uw_absent_upto ring0 bits_in n = true → (1 ≤ j ≤ n)%nat →
  2 < uw_errors (ring_after ring0 bits_in j) (Z.of_nat j) 16.
Proof.
  intros Hring. induction n as [|n IH]; [lia|]. intros Hn Hlen.
  change (uw_absent_upto ring0 bits_in (S n))
    with (uw_absent_upto ring0 bits_in n &&
          match fvhff_match_uw
                  {| ftype := FREEDV_VHF_FRAME_A; state := ST_NOSYNC;
                     bits := ring_after ring0 bits_in (S n);
                     bitptr := Z.of_nat (S n);
                     miss_cnt := 0; last_uw := 0; frame_size := 96 |} 2 with
          | Some 0 => true
          | _ => false
          end).
  intros [Hbefore Hlast]%andb_true_iff Hj.
  destruct (decide (j = S n)) as [->|]; [|apply IH; [lia|lia|done|lia]].
  rewrite match_uw_spec in Hlast.
  - cbn [bits bitptr] in Hlast. revert Hlast. case_cmp; done.
  - unfold ring_ok. cbn [ftype frame_size bits bitptr].
    rewrite length_ring_after by lia. repeat split; lia.
Qed.

Ltac proj :=
  cbn [l_def l_state l_bitptr l_last_uw l_miss_cnt l_extracted_frame l_out
       l_events bits bitptr ftype state miss_cnt last_uw frame_size
       waiting with_ring deframe_exit].

Lemma last_bit_def def o f :
  with_ring (l_def (waiting def o f 95)) f
    (next_bitptr (l_bitptr (waiting def o f 95)) 96) = with_ring def f 0.
Proof. reflexivity. Qed.

(** A call on a Synchronized deframer whose check of the UW falls on
    the last bit of the batch [f]. *)
Lemma sync_call def o f :
  deframer_ok def → state def = ST_SYNC → last_uw def = 0 →
  length f = 96%nat → outputs_ok o →
  fvhff_deframe_bits def o f =
  Some ({| ftype := ftype def;
           state := if (if uw_errors f 0 16 <=? 1 then 0 else miss_cnt def + 1) >? 2
                    then ST_NOSYNC else ST_SYNC;
           bits := f; bitptr := 0;
           miss_cnt := if uw_errors f 0 16 <=? 1 then 0 else miss_cnt def + 1;
           last_uw := 0; frame_size := 96 |},
        extracted f 0 o, 1).
Proof.
  intros Hok Hs Hlu Hf Ho.
  destruct (last_bit_ok def o f Hok Hf) as (Hrd & Hwr & Hring).
  assert (Hok' := Hok). destruct Hok' as ((Hty & Hfs & _) & _).
  pose (miss := if uw_errors f 0 16 <=? 1 then 0 else miss_cnt def + 1).
  rewrite (deframe_bits_last def o f (waiting def o f 95)
    {| l_def := with_ring def f 0;
       l_state := if miss >? 2 then ST_NOSYNC else ST_SYNC;
       l_bitptr := 0; l_last_uw := 0; l_miss_cnt := miss;
       l_extracted_frame := 1; l_out := extracted f 0 o; l_events := 1 |});
    [done|done|done| |].
  - apply quiet_run; [done|lia|lia|lia|]. rewrite Hs. done.
  - apply deframe_bit_cases. exists (getz f 95), f.
    split; [done|]. split; [done|]. left.
    rewrite last_bit_def. unfold sync_check. proj. rewrite Hs, Hlu.
    split; [done|]. split; [done|].
    exists (if uw_errors f 0 16 <=? 1 then 1 else 0), (extracted f 0 o).
    split; [by rewrite match_uw_spec|].
    split; [apply extract_spec; [exact Hring|exact Ho|right; done]|].
    unfold miss. destruct (uw_errors f 0 16 <=? 1); reflexivity.
Qed.


(** ** The UW field of a frame *)

Lemma getz_uw_field f j :
  length f = 96%nat → 0 <= j < 16 → getz (uw_field f) j = getz f (40 + j).
Proof.
  intros Hf Hj. unfold getz, rd, uw_field.
  rewrite length_take, length_drop, Hf.
  change (Z.of_nat (16 `min` (96 - 40))) with 16.
  change (Z.of_nat 96) with 96.
  replace ((0 <=? j) && (j <? 16)) with true
    by (symmetry; apply andb_true_iff; lia).
  replace ((0 <=? 40 + j) && (40 + j <? 96)) with true
    by (symmetry; apply andb_true_iff; lia).
  rewrite lookup_take_lt, lookup_drop by lia. do 2 f_equal. lia.
Qed.

Lemma uw_errors_distance f : length f = 96%nat → uw_errors f 0 16 = uw_distance f.
Proof.
  intros Hf. unfold uw_distance.
  assert (∀ n, (n ≤ 16)%nat → uw_errors f 0 n = field_errors (uw_field f) n) as H;
    [|by apply H].
  induction n as [|n IH]; intros Hn; [done|].
  rewrite uw_errors_S, IH by lia.
  change (field_errors (uw_field f) (S n))
    with (field_errors (uw_field f) n +
          (if getz (uw_field f) (Z.of_nat n) =? getz A_uw (Z.of_nat n)
           then 0 else 1)).
  rewrite getz_uw_field by lia. unfold ring_bit.
  rewrite Z.add_0_l, Z.mod_small by lia. done.
Qed.






(** ** Frames made by the framer *)

Lemma frame_rd bo c p v f x :
  frame_args_ok bo c p v →
  fvhff_frame_bits FREEDV_VHF_FRAME_A bo c p v = Some f →
  0 <= x < 96 → rd f x = Some (frame_bit c p v x).
Proof.
  intros Hok Hf Hx. destruct (frame_bits_spec _ _ _ _ Hok) as (f' & Hf' & _ & Hrd).
  rewrite Hf in Hf'. injection Hf' as <-. rewrite Hrd. case_cmp. done.
Qed.



(** ** Packing what was unpacked *)

Lemma packed_ext src src' m n :
  (∀ k, 0 <= k < Z.of_nat n → src k = src' k) →
  packed src m n = packed src' m n.
Proof.
  induction n as [|n IH]; intros H; [done|].
  rewrite !packed_S, IH, (H (Z.of_nat n)) by (intros; try apply H; lia). done.
Qed.

Lemma below_forallb (P : nat → bool) n a :
  forallb P (seq 0 n) = true → (a < n)%nat → P a = true.
Proof.
  intros H Ha. rewrite forallb_forall in H. apply H. apply in_seq. lia.
Qed.

(** The eight bits of a byte, unpacked then packed, are the byte; the
    four high-order bits alone are the byte without its low nibble. *)
Lemma byte_packed x :
  0 <= x < 256 →
  packed (bit_of [x]) 0 8 = x ∧ packed (bit_of [x]) 0 4 = Z.land x 240.
Proof.
  intros Hx.
  assert (forallb (λ n, (packed (bit_of [Z.of_nat n]) 0 8 =? Z.of_nat n) &&
                        (packed (bit_of [Z.of_nat n]) 0 4 =? Z.land (Z.of_nat n) 240))
            (seq 0 256) = true) as H by (vm_compute; reflexivity).
  apply (below_forallb _ 256 (Z.to_nat x)) in H; [|lia].
  cbv beta in H. rewrite Z2Nat.id in H by lia. apply andb_true_iff in H. lia.
Qed.

Lemma low_nibble_clear x : 0 <= x < 256 → Z.land x 15 = 0 → Z.land x 240 = x.
Proof.
  intros Hx H.
  assert (forallb (λ n, negb (Z.land (Z.of_nat n) 15 =? 0) ||
                        (Z.land (Z.of_nat n) 240 =? Z.of_nat n))
            (seq 0 256) = true) as Hall by (vm_compute; reflexivity).
  apply (below_forallb _ 256 (Z.to_nat x)) in Hall; [|lia].
  cbv beta in Hall. rewrite Z2Nat.id in Hall by lia.
  apply orb_true_iff in Hall as [Hn|Hn]; [|lia].
  apply negb_true_iff, Z.eqb_neq in Hn. done.
Qed.

Ltac repack :=
  repeat match goal with
  | Hb : 0 <= ?b < 256 |- context [packed (bit_of [?b]) 0 8] =>
      rewrite (proj1 (byte_packed b Hb))
  | Hb : 0 <= ?b < 256 |- context [packed (bit_of [?b]) 0 4] =>
      rewrite (proj2 (byte_packed b Hb))
  end.

Lemma payload_packed c :
  payload52 c →
  map (λ m, packed (bit_of c) m 52) (seqZ 0 7) = c.
Proof.
  intros (Hlen & Hbytes & Hlow).
  do 7 (destruct c as [|? c]; [done|]). destruct c; [|done].
  repeat match goal with H : Forall _ (_ :: _) |- _ => inversion_clear H end.
  change (getz [z; z0; z1; z2; z3; z4; z5] 6) with z5 in Hlow.
  change (map (λ m, packed (bit_of [z; z0; z1; z2; z3; z4; z5]) m 52) (seqZ 0 7))
    with [packed (bit_of [z]) 0 8; packed (bit_of [z0]) 0 8;
          packed (bit_of [z1]) 0 8; packed (bit_of [z2]) 0 8;
          packed (bit_of [z3]) 0 8; packed (bit_of [z4]) 0 8;
          packed (bit_of [z5]) 0 4].
  repack. by rewrite low_nibble_clear.
Qed.

Lemma proto_packed p :
  proto20 p →
  map (λ m, packed (bit_of p) m 20) (seqZ 0 3) = p.
Proof.
  intros (Hlen & Hbytes & Hlow).
  do 3 (destruct p as [|? p]; [done|]). destruct p; [|done].
  repeat match goal with H : Forall _ (_ :: _) |- _ => inversion_clear H end.
  change (getz [z; z0; z1] 2) with z1 in Hlow.
  change (map (λ m, packed (bit_of [z; z0; z1]) m 20) (seqZ 0 3))
    with [packed (bit_of [z]) 0 8; packed (bit_of [z0]) 0 8;
          packed (bit_of [z1]) 0 4].
  repack. by rewrite low_nibble_clear.
Qed.

(** ** The fields of a frame made by the framer *)

Lemma getz_frame bo c p v f x :
  frame_args_ok bo c p v →
  fvhff_frame_bits FREEDV_VHF_FRAME_A bo c p v = Some f →
  0 <= x < 96 → ring_bit f 0 x = frame_bit c p v x.
Proof.
  intros Hok Hf Hx. unfold ring_bit, getz.
  rewrite Z.add_0_l, Z.mod_small by lia.
  by rewrite (frame_rd _ _ _ _ _ _ Hok Hf Hx).
Qed.

Lemma frame_payload bo c p v f k :
  frame_args_ok bo c p v →
  fvhff_frame_bits FREEDV_VHF_FRAME_A bo c p v = Some f →
  0 <= k < 52 → ring_bit f 0 (payload_off k) = bit_of c k.
Proof.
  intros Hok Hf Hk. unfold payload_off.
  destruct (Z.ltb_spec k 24).
  - rewrite (getz_frame _ _ _ _ _ _ Hok Hf) by lia.
    unfold frame_bit. case_cmp. f_equal. lia.
  - rewrite (getz_frame _ _ _ _ _ _ Hok Hf) by lia.
    unfold frame_bit. case_cmp. f_equal. lia.
Qed.

Lemma frame_proto bo c proto v f k :
  frame_args_ok bo c (Some proto) v →
  fvhff_frame_bits FREEDV_VHF_FRAME_A bo c (Some proto) v = Some f →
  0 <= k < 20 → ring_bit f 0 (proto_off k) = bit_of proto k.
Proof.
  intros Hok Hf Hk. unfold proto_off.
  destruct (Z.ltb_spec k 12).
  - rewrite (getz_frame _ _ _ _ _ _ Hok Hf) by lia.
    unfold frame_bit. case_cmp. f_equal. lia.
  - rewrite (getz_frame _ _ _ _ _ _ Hok Hf) by lia.
    unfold frame_bit. case_cmp. f_equal. lia.
Qed.

Lemma take_overwrite n F a :
  take n (overwrite n F a) = map F (seqZ 0 (Z.of_nat n)).
Proof.
  unfold overwrite. apply take_app_length'.
  by rewrite length_map, length_seqZ, Nat2Z.id.
Qed.

Lemma extracted_ok f cursor o : outputs_ok o → outputs_ok (extracted f cursor o).
Proof.
  intros (Hc & Hp & Hv). unfold extracted, outputs_ok.
  cbn [codec2_out proto_out vc_out].
  split; [by rewrite length_overwrite|]. split.
  - intros p. destruct (proto_out o) as [po|]; [|done].
    intros [= <-]. rewrite length_overwrite; eauto.
  - intros v. destruct (vc_out o) as [vo|]; [|done].
    intros [= <-]. rewrite length_overwrite; eauto.
Qed.


(** ** Losing and keeping the lock *)

Lemma flipped_errors f :
  length f = 96%nat → uw_field f = map flip A_uw → uw_errors f 0 16 = 16.
Proof.
  intros Hf Hw. rewrite (uw_errors_distance f Hf). unfold uw_distance.
  rewrite Hw. reflexivity.
Qed.

(** A call on a Synchronized deframer, the countdown at 0, with a frame
    whose UW is flipped throughout: the frame is extracted, one more
    miss is counted. *)
Lemma missed_call def o f :
  deframer_ok def → state def = ST_SYNC → last_uw def = 0 →
  outputs_ok o → length f = 96%nat → uw_field f = map flip A_uw →
  ∃ def' o',
    fvhff_deframe_bits def o f = Some (def', o', 1) ∧
    fvhff_extract_frame (with_ring def f 0) o = Some o' ∧
    o' = extracted f 0 o ∧
    deframer_ok def' ∧ outputs_ok o' ∧ last_uw def' = 0 ∧
    miss_cnt def' = miss_cnt def + 1 ∧
    state def' = if miss_cnt def + 1 >? 2 then ST_NOSYNC else ST_SYNC.
Proof.
  intros Hok Hs Hlu Ho Hf Hw.
  pose proof (sync_call def o f Hok Hs Hlu Hf Ho) as Hcall.
  rewrite (flipped_errors f Hf Hw) in Hcall.
  change (16 <=? 1) with false in Hcall. cbv iota in Hcall.
  eexists _, _. split; [exact Hcall|].
  split.
  { apply extract_spec; [|done|right; done].
    apply with_ring_ok; [apply (proj1 Hok)|done|lia]. }
  split; [done|].
  split; [exact (deframe_bits_ok _ _ _ _ _ _ Hok Hcall)|].
  split; [by apply extracted_ok|]. done.
Qed.

(** ** First acquisition *)



(** ** Concrete runs *)

Lemma cold_reachable : reachable cold.
Proof. by apply (reach_create FREEDV_VHF_FRAME_A zeros96). Qed.

Lemma misaligned_reachable : reachable misaligned.
Proof.
  apply (reach_deframe cold spare (uw_at 45) misaligned spare 0);
    [apply cold_reachable|vm_compute; reflexivity].
Qed.

Lemma drifting_reachable : reachable drifting.
Proof.
  apply (reach_deframe
           {| ftype := FREEDV_VHF_FRAME_A; state := ST_SYNC; bits := zeros96;
              bitptr := 0; miss_cnt := 1; last_uw := 40; frame_size := 96 |}
           spare zeros96 drifting spare 1); [|vm_compute; reflexivity].
  apply (reach_deframe
           {| ftype := FREEDV_VHF_FRAME_A; state := ST_SYNC; bits := uw_at 0;
              bitptr := 0; miss_cnt := 0; last_uw := 40; frame_size := 96 |}
           spare zeros96 _ spare 1); [|vm_compute; reflexivity].
  apply (reach_deframe cold spare (uw_at 0) _ spare 1);
    [apply cold_reachable|vm_compute; reflexivity].
Qed.

(** C2 fails on the code. A deframer just created is fed 96 bits with
    the UW at offset 45, then 96 more bits: the fifth of these moves
    the cursor to 5, where the UW is in place, and the extraction that
    follows reads the second side-channel bit at index 95 + 1 = 96,
    outside the ring, where the other fields wrap to index 0. Without
    a side-channel destination the same call returns. *)
Theorem C2_side_channel_read_outside_ring :
  reachable misaligned ∧
  fvhff_deframe_bits misaligned spare zeros96 = None ∧
  fvhff_extract_frame
    (with_ring misaligned (ring_after (bits misaligned) zeros96 5) 5) spare
    = None ∧
  ring_start 5 90 96 = 95 ∧
  rd (ring_after (bits misaligned) zeros96 5) (95 + 1) = None ∧
  ring_next 95 96 = 0 ∧
  is_Some (fvhff_deframe_bits misaligned spare_no_vc zeros96).
Proof.
  split; [apply misaligned_reachable|].
  split; [vm_compute; reflexivity|].
  split; [vm_compute; reflexivity|].
  split; [reflexivity|].
  split; [vm_compute; reflexivity|].
  split; [reflexivity|].
  eexists. vm_compute. reflexivity.
Qed.

(** C5 as stated fails: the deframer [drifting] is reachable, and a
    batch with the UW at offset 40 makes it extract twice in one call,
    at the check that drops the lock and at the new lock on the last
    bit. *)
Lemma C5_counterexample :
  ¬ (∀ def o bits_in n,
       reachable def → length bits_in = 96%nat →
       extraction_events def o bits_in = Some n → (n ≤ 1)%nat).
Proof.
  intros H.
  specialize (H drifting spare (uw_at 40) 2%nat drifting_reachable eq_refl).
  assert (extraction_events drifting spare (uw_at 40) = Some 2%nat) as Hev
    by (vm_compute; reflexivity).
  specialize (H Hev). lia.
Qed.

Lemma C5_witness :
  (2 ≤ 2)%nat ∧
  (state drifting = ST_NOSYNC ∨ miss_cnt drifting < 2 ∨ last_uw drifting = 0 →
   (2 ≤ 1)%nat).
Proof.
  apply (C5_extractions_per_call drifting spare (uw_at 40) 2).
  - apply (reach_deframe
             {| ftype := FREEDV_VHF_FRAME_A; state := ST_SYNC; bits := zeros96;
                bitptr := 0; miss_cnt := 1; last_uw := 40; frame_size := 96 |}
             spare zeros96 drifting spare 1); [|vm_compute; reflexivity].
    apply (reach_deframe
             {| ftype := FREEDV_VHF_FRAME_A; state := ST_SYNC; bits := uw_at 0;
                bitptr := 0; miss_cnt := 0; last_uw := 40; frame_size := 96 |}
             spare zeros96 _ spare 1); [|vm_compute; reflexivity].
    apply (reach_deframe cold spare (uw_at 0) _ spare 1);
      [|vm_compute; reflexivity].
    apply (reach_create FREEDV_VHF_FRAME_A zeros96); reflexivity.
  - vm_compute. reflexivity.
Defined.

Lemma C9_witness : spare = spare.
Proof.
  apply (C9_outputs_untouched_without_extraction cold spare zeros96
           {| ftype := FREEDV_VHF_FRAME_A; state := ST_NOSYNC; bits := zeros96;
              bitptr := 0; miss_cnt := 0; last_uw := 0; frame_size := 96 |}
           spare).
  vm_compute. reflexivity.
Defined.

Lemma C10_witness :
  (∃ x, rd (codec2_out (extracted plain_frame 0 spare)) 6 = Some x ∧
        Z.land x 15 = 0) ∧
  (is_Some (proto_out spare) →
   ∃ p x, proto_out (extracted plain_frame 0 spare) = Some p ∧
          rd p 2 = Some x ∧ Z.land x 15 = 0).
Proof.
  apply (C10_packed_padding_bits_zero
           {| ftype := FREEDV_VHF_FRAME_A; state := ST_SYNC; bits := plain_frame;
              bitptr := 0; miss_cnt := 0; last_uw := 0; frame_size := 96 |}
           spare (extracted plain_frame 0 spare)).
  - reflexivity.
  - vm_compute. reflexivity.
Defined.

(** * Further properties of the code *)

(** ** What a call does to the struct *)

Lemma for_loop_ext {St} (body body' : Z → St → option St) n i s :
  (∀ j t, i <= j < i + Z.of_nat n → body j t = body' j t) →
  for_loop n i body s = for_loop n i body' s.
Proof.
  revert i s. induction n as [|n IH]; intros i s H; [done|].
  simpl. rewrite (H i s) by lia. destruct (body' i s) as [t|]; [|done].
  simpl. apply IH. intros. apply H. lia.
Qed.

(** A loop whose body fails at one index, whatever the state, fails. *)
Lemma for_loop_fails {St} (body : Z → St → option St) n i s j :
  i <= j < i + Z.of_nat n → (∀ t, body j t = None) →
  for_loop n i body s = None.
Proof.
  revert i s. induction n as [|n IH]; intros i s Hj Hfail; [lia|].
  simpl. destruct (decide (j = i)) as [->|]; [by rewrite Hfail|].
  destruct (body i s) as [t|]; [|done]. simpl. apply IH; [lia|done].
Qed.

(** Between two calls the cursor is back at 0, the ring has its 96
    cells, and the counters are small: the miss count never exceeds 3,
    and is at most 2 while Synchronized. *)
Theorem X_between_calls def :
  reachable def →
  ftype def = FREEDV_VHF_FRAME_A ∧ frame_size def = 96 ∧
  length (bits def) = 96%nat ∧ bitptr def = 0 ∧
  0 <= last_uw def < 96 ∧ 0 <= miss_cnt def <= 3 ∧
  (state def = ST_NOSYNC ∨ state def = ST_SYNC ∧ miss_cnt def <= 2).
Proof.
  intros Hr. apply reachable_inv in Hr.
  destruct Hr as ((? & ? & ? & ?) & ? & ? & ? & ?). done.
Qed.

Lemma X_between_calls_witness :
  ftype drifting = FREEDV_VHF_FRAME_A ∧ frame_size drifting = 96 ∧
  length (bits drifting) = 96%nat ∧ bitptr drifting = 0 ∧
  0 <= last_uw drifting < 96 ∧ 0 <= miss_cnt drifting <= 3 ∧
  (state drifting = ST_NOSYNC ∨
   state drifting = ST_SYNC ∧ miss_cnt drifting <= 2).
Proof.
  apply (X_between_calls drifting).
  apply (reach_deframe
           {| ftype := FREEDV_VHF_FRAME_A; state := ST_SYNC; bits := zeros96;
              bitptr := 0; miss_cnt := 1; last_uw := 40; frame_size := 96 |}
           spare zeros96 drifting spare 1); [|vm_compute; reflexivity].
  apply (reach_deframe
           {| ftype := FREEDV_VHF_FRAME_A; state := ST_SYNC; bits := uw_at 0;
              bitptr := 0; miss_cnt := 0; last_uw := 40; frame_size := 96 |}
           spare zeros96 _ spare 1); [|vm_compute; reflexivity].
  apply (reach_deframe cold spare (uw_at 0) _ spare 1);
    [|vm_compute; reflexivity].
  apply (reach_create FREEDV_VHF_FRAME_A zeros96); reflexivity.
Defined.

(** The returned flag is 0 or 1, and it is 1 exactly when the
    extractor ran in at least one iteration of the call. *)
Theorem X_flag_counts_extractions def o bits_in def' o' r :
  fvhff_deframe_bits def o bits_in = Some (def', o', r) →
  ∃ n, extraction_events def o bits_in = Some n ∧
       (r = 0 ∧ n = O ∨ r = 1 ∧ (1 ≤ n)%nat).
Proof.
  unfold fvhff_deframe_bits, extraction_events, deframe_loop, for_range.
  destruct (ftype def =? FREEDV_VHF_FRAME_A).
  - rewrite Z.sub_0_r.
    destruct (for_loop _ _ _ _) as [l|] eqn:Hrun; [|done].
    cbn [mbind option_bind]. intros [= _ _ <-].
    exists (l_events l). split; [done|].
    apply (for_loop_inv
      (λ _ l, l_extracted_frame l = 0 ∧ l_events l = O ∨
              l_extracted_frame l = 1 ∧ (1 ≤ l_events l)%nat)) in Hrun;
      [done|by left|].
    intros j t t' _ Ht Hstep. apply deframe_bit_cases in Hstep.
    destruct Hstep as (b & ring & _ & _ & H). cbv zeta in H.
    destruct H as [(_ & _ & m & out & _ & _ & ->)
                  |[(_ & _ & ->)
                  |[(_ & m & out & _ & _ & _ & ->)
                  |(_ & _ & ->)]]]; proj; first [done|right; split; [done|lia]].
  - intros [= _ _ <-]. exists O. split; [done|]. by left.
Qed.

Lemma X_flag_counts_extractions_witness :
  ∃ n, extraction_events drifting spare (uw_at 40) = Some n ∧
       (1 = 0 ∧ n = O ∨ 1 = 1 ∧ (1 ≤ n)%nat).
Proof.
  apply (X_flag_counts_extractions drifting spare (uw_at 40) locked
           (extracted (uw_at 40) 0 spare) 1).
  vm_compute. reflexivity.
Defined.

(** A Synchronized deframer delivers on every call: whatever the 96
    bits are, a call that returns reports an extraction. *)
Theorem X_synchronized_call_reports def o bits_in def' o' r :
  reachable def → state def = ST_SYNC →
  fvhff_deframe_bits def o bits_in = Some (def', o', r) →
  r = 1.
Proof.
  intros Hr Hs. apply reachable_inv in Hr. assert (Hok := Hr).
  destruct Hr as ((Hty & Hfs & _) & _ & Hlu & _).
  unfold fvhff_deframe_bits, for_range. rewrite Hty, Z.eqb_refl, Hfs.
  destruct (for_loop _ _ _ _) as [l|] eqn:Hrun; [|done].
  cbn [mbind option_bind]. intros [= _ _ <-].
  apply (for_loop_inv (λ j l,
    l_extracted_frame l = 1 ∨
    l_state l = ST_SYNC ∧ l_last_uw l = last_uw def + j ∧ last_uw def + j < 96))
    in Hrun.
  - destruct Hrun as [?|(_ & _ & ?)]; [done|lia].
  - right. cbn [deframe_entry l_state l_last_uw]. lia.
  - intros j t t' Hj Ht Hstep. apply deframe_bit_cases in Hstep.
    destruct Hstep as (b & ring & _ & _ & H). cbv zeta in H.
    destruct H as [(_ & _ & m & out & _ & _ & ->)
                  |[(_ & Hu & ->)
                  |[(_ & m & out & _ & _ & _ & ->)
                  |(Hn & _ & ->)]]]; proj; auto.
    + destruct Ht as [?|(? & ? & ?)]; [by left|]. right. lia.
    + destruct Ht as [?|(? & _)]; [by left|done].
Qed.

Lemma X_synchronized_call_reports_witness :
  ∃ def' o' r,
    fvhff_deframe_bits drifting spare zeros96 = Some (def', o', r) ∧ r = 1.
Proof.
  eexists _, _, _. split; [vm_compute; reflexivity|].
  apply (X_synchronized_call_reports drifting spare zeros96
           {| ftype := FREEDV_VHF_FRAME_A; state := ST_NOSYNC; bits := zeros96;
              bitptr := 0; miss_cnt := 3; last_uw := 0; frame_size := 96 |}
           spare 1).
  - exact drifting_reachable.
  - reflexivity.
  - vm_compute. reflexivity.
Defined.

(** From Unsynchronized, the returned flag tells whether the lock was
    taken, and is what [fvhff_synchronized] answers after the call: a
    call that returns 1 leaves the deframer Synchronized with no miss
    counted; a call that returns 0 leaves it Unsynchronized, its
    counters and the output arrays as they were. *)
Theorem X_unsynchronized_call_outcome def o bits_in def' o' r :
  reachable def → state def = ST_NOSYNC →
  fvhff_deframe_bits def o bits_in = Some (def', o', r) →
  fvhff_synchronized def' = r ∧
  (r = 1 ∧ state def' = ST_SYNC ∧ miss_cnt def' = 0 ∧
     0 <= last_uw def' < 96 ∨
   r = 0 ∧ state def' = ST_NOSYNC ∧ miss_cnt def' = miss_cnt def ∧
     last_uw def' = last_uw def ∧ o' = o).
Proof.
  intros Hr Hs. apply reachable_inv in Hr.
  destruct Hr as ((Hty & Hfs & _) & _ & Hlu & _).
  unfold fvhff_deframe_bits, for_range. rewrite Hty, Z.eqb_refl, Hfs.
  destruct (for_loop _ _ _ _) as [l|] eqn:Hrun; [|done].
  cbn [mbind option_bind]. intros [= <- <- <-].
  unfold fvhff_synchronized. cbn [state miss_cnt last_uw].
  apply (for_loop_inv (λ j l,
    l_extracted_frame l = 1 ∧ l_state l = ST_SYNC ∧ l_miss_cnt l = 0 ∧
      0 <= l_last_uw l < j ∨
    l_extracted_frame l = 0 ∧ l_state l = ST_NOSYNC ∧
      l_miss_cnt l = miss_cnt def ∧ l_last_uw l = last_uw def ∧ l_out l = o))
    in Hrun.
  - destruct Hrun as [(He & Hs' & ? & ?)|(He & Hs' & ?)]; rewrite He, Hs'.
    + split; [done|]. left. repeat split; try done; lia.
    + split; [done|]. by right.
  - right. done.
  - intros j t t' Hj Ht Hstep. pose proof sync_states_differ.
    apply deframe_bit_cases in Hstep.
    destruct Hstep as (b & ring & _ & _ & H'). cbv zeta in H'.
    destruct H' as [(Hst & Hu & m & out & _ & _ & ->)
                   |[(Hst & Hu & ->)
                   |[(_ & m & out & _ & _ & _ & ->)
                   |(Hn & _ & ->)]]]; proj.
    + destruct Ht as [(_ & _ & _ & ?)|(_ & ? & _)]; [lia|congruence].
    + destruct Ht as [(? & ? & ? & ?)|(_ & ? & _)]; [|congruence].
      left. repeat split; try done; lia.
    + left. repeat split; try done; lia.
    + destruct Ht as [(_ & ? & _)|?]; [congruence|by right].
Qed.

Lemma X_unsynchronized_call_outcome_witness :
  fvhff_synchronized locked = 1 ∧
  (1 = 1 ∧ state locked = ST_SYNC ∧ miss_cnt locked = 0 ∧
     0 <= last_uw locked < 96 ∨
   1 = 0 ∧ state locked = ST_NOSYNC ∧ miss_cnt locked = miss_cnt cold ∧
     last_uw locked = last_uw cold ∧ extracted (uw_at 40) 0 spare = spare).
Proof.
  apply (X_unsynchronized_call_outcome cold spare (uw_at 40) locked
           (extracted (uw_at 40) 0 spare) 1).
  - apply (reach_create FREEDV_VHF_FRAME_A zeros96); reflexivity.
  - reflexivity.
  - vm_compute. reflexivity.
Defined.

(** After a call the ring holds the 96 bits of the batch, in order
    from index 0: the history before the call is gone. *)
Theorem X_ring_holds_the_batch def o bits_in def' o' r :
  reachable def →
  fvhff_deframe_bits def o bits_in = Some (def', o', r) →
  bits def' = take 96 bits_in ∧ (96 ≤ length bits_in)%nat.
Proof.
  intros Hr. apply reachable_inv in Hr. assert (Hok := Hr).
  destruct Hr as ((Hty & Hfs & Hring & _) & Hb0 & _).
  unfold fvhff_deframe_bits, for_range. rewrite Hty, Z.eqb_refl, Hfs.
  destruct (for_loop _ _ _ _) as [l|] eqn:Hrun; [|done].
  cbn [mbind option_bind]. intros [= <- _ _]. cbn [bits].
  apply (for_loop_inv (λ j l,
    0 <= j <= 96 ∧ l_bitptr l = j mod 96 ∧ j <= Z.of_nat (length bits_in) ∧
    bits (l_def l) = ring_after (bits def) bits_in (Z.to_nat j))) in Hrun.
  - destruct Hrun as (_ & _ & Hlen & ->).
    change (Z.to_nat (0 + Z.of_nat (Z.to_nat (96 - 0)))) with 96%nat.
    change (0 + Z.of_nat (Z.to_nat (96 - 0))) with 96 in Hlen.
    split; [|lia]. unfold ring_after. rewrite drop_ge, app_nil_r by lia. done.
  - cbn [deframe_entry l_bitptr l_def]. unfold ring_after.
    rewrite drop_0. repeat split; try lia. by rewrite Hb0.
  - intros j t t' Hj (Hj' & Hcur & Hlen & Hbits) Hstep.
    apply deframe_bit_cases in Hstep.
    destruct Hstep as (b & ring & Hb & Hw & H'). cbv zeta in H'.
    assert (j < Z.of_nat (length bits_in)) as Hjlen
      by (apply rd_Some in Hb; lia).
    assert (ring = ring_after (bits def) bits_in (S (Z.to_nat j))) as ->.
    { rewrite Hcur, Z.mod_small, Hbits in Hw by lia.
      apply rd_Some in Hb as [_ Hb].
      assert (getz bits_in j = b) as <-.
      { unfold getz, rd. rewrite Hb. case_cmp; done. }
      pose proof (ring_after_step (bits def) bits_in (Z.to_nat j) Hring
                    ltac:(lia) ltac:(lia)) as Hstep'.
      rewrite Z2Nat.id in Hstep' by lia. congruence. }
    replace (Z.to_nat (j + 1)) with (S (Z.to_nat j)) by lia.
    assert (next_bitptr (l_bitptr t) 96 = (j + 1) mod 96) as Hnext.
    { rewrite Hcur. unfold next_bitptr. case_cmp; zmod. }
    destruct H' as [(_ & _ & m & out & _ & _ & ->)
                   |[(_ & _ & ->)
                   |[(_ & m & out & _ & _ & _ & ->)
                   |(_ & _ & ->)]]]; proj;
      (split; [lia|]); (split; [done|]); (split; [lia|done]).
Qed.

Lemma X_ring_holds_the_batch_witness :
  bits locked = take 96 (uw_at 40) ∧ (96 ≤ length (uw_at 40))%nat.
Proof.
  apply (X_ring_holds_the_batch cold spare (uw_at 40) locked
           (extracted (uw_at 40) 0 spare) 1).
  - apply (reach_create FREEDV_VHF_FRAME_A zeros96); reflexivity.
  - vm_compute. reflexivity.
Defined.

(** ** What a call needs from its arguments *)

Lemma rd_take_eq a a' n j :
  take n a = take n a' → 0 <= j < Z.of_nat n → rd a j = rd a' j.
Proof.
  intros Heq Hj. unfold rd.
  assert (length (take n a) = length (take n a')) as Hlen by by rewrite Heq.
  rewrite !length_take in Hlen.
  rewrite <- (lookup_take_lt a n (Z.to_nat j)),
          <- (lookup_take_lt a' n (Z.to_nat j)), Heq by lia.
  case_cmp; try done; lia.
Qed.

(** One iteration of the deframer loop on locals that are in range,
    with a bit to read and no side-channel destination, does not
    fail. *)
Lemma deframe_bit_runs bits_in j t :
  locals_ok t → outputs_ok (l_out t) → vc_out (l_out t) = None →
  0 <= j < Z.of_nat (length bits_in) →
  ∃ t', deframe_bit 96 2 1 2 bits_in j t = Some t' ∧
        outputs_ok (l_out t') ∧ vc_out (l_out t') = None.
Proof.
  intros ((Hty & Hfs & Hlen & Hbp) & Hptr & _) Hto Htv Hj.
  destruct (rd_lt bits_in j) as [b Hb]; [lia|].
  pose proof (wr_lt (bits (l_def t)) (l_bitptr t) b ltac:(lia)) as Hw.
  set (ring := <[_ := b]> _) in Hw.
  set (d := with_ring (l_def t) ring (next_bitptr (l_bitptr t) 96)).
  assert (ring_ok d) as Hd.
  { apply with_ring_ok; [done|by unfold ring; rewrite length_insert|].
    rewrite next_bitptr_mod by lia. zmod. }
  pose proof (extract_spec d (l_out t) Hd Hto (or_introl Htv)) as Hex.
  assert (outputs_ok (extracted (bits d) (bitptr d) (l_out t))) as Hex1
    by by apply extracted_ok.
  assert (vc_out (extracted (bits d) (bitptr d) (l_out t)) = None) as Hex2
    by (unfold extracted; cbn [vc_out]; by rewrite Htv).
  destruct (Z.eq_dec (l_state t) ST_SYNC) as [Hs|Hs];
    [destruct (Z.eq_dec (l_last_uw t + 1) 96) as [Hu|Hu]
    |destruct (uw_errors (bits d) (bitptr d) 16 <=? 2) eqn:Hm].
  - eexists. split.
    + apply deframe_bit_cases. exists b, ring. split; [done|]. split; [done|].
      left. split; [done|]. split; [done|].
      eexists _, _. split; [by apply match_uw_spec|]. split; [exact Hex|].
      reflexivity.
    + proj. done.
  - eexists. split.
    + apply deframe_bit_cases. exists b, ring. split; [done|]. split; [done|].
      right; left. split; [done|]. split; [done|]. reflexivity.
    + proj. done.
  - eexists. split.
    + apply deframe_bit_cases. exists b, ring. split; [done|]. split; [done|].
      right; right; left. split; [done|].
      exists 1, (extracted (bits d) (bitptr d) (l_out t)).
      split; [change (fvhff_match_uw d 2 = Some 1);
              by rewrite (match_uw_spec d 2 Hd), Hm|].
      split; [done|]. split; [exact Hex|]. reflexivity.
    + proj. done.
  - eexists. split.
    + apply deframe_bit_cases. exists b, ring. split; [done|]. split; [done|].
      right; right; right. split; [done|].
      split; [change (fvhff_match_uw d 2 = Some 0);
              by rewrite (match_uw_spec d 2 Hd), Hm|].
      reflexivity.
    + proj. done.
Qed.

(** Without a side-channel destination a call cannot go wrong: on any
    deframer made by [fvhff_create_deframer] and driven by
    [fvhff_deframe_bits], with output arrays of at least 7 and 3 bytes
    and at least 96 input bits, every array access of the call is
    within bounds and the call returns; the arrays it hands back are
    fit for the next call. *)
Theorem X_call_returns_without_side_channel def o bits_in :
  reachable def → outputs_ok o → vc_out o = None →
  (96 ≤ length bits_in)%nat →
  ∃ def' o' r,
    fvhff_deframe_bits def o bits_in = Some (def', o', r) ∧
    outputs_ok o' ∧ vc_out o' = None.
Proof.
  intros Hr Ho Hv Hlen. apply reachable_inv in Hr. assert (Hok := Hr).
  destruct Hr as ((Hty & Hfs & _) & _).
  unfold fvhff_deframe_bits, for_range. rewrite Hty, Z.eqb_refl, Hfs.
  destruct (for_loop_total (deframe_bit 96 2 1 2 bits_in)
    (λ j l, locals_ok l ∧ outputs_ok (l_out l) ∧ vc_out (l_out l) = None)
    (Z.to_nat (96 - 0)) 0 (deframe_entry def o)) as (l & Hrun & _ & Ho' & Hv').
  - split; [by apply deframe_entry_ok|done].
  - intros j t Hj (Ht & Hto & Htv).
    destruct (deframe_bit_runs bits_in j t Ht Hto Htv) as (t' & E & ? & ?);
      [lia|].
    exists t'. split; [done|]. split; [|done].
    by destruct (deframe_bit_ok _ _ _ _ Ht E).
  - rewrite Hrun. cbn [mbind option_bind]. eexists _, _, _.
    split; [reflexivity|]. split; done.
Qed.

Lemma X_call_returns_without_side_channel_witness :
  ∃ def' o' r,
    fvhff_deframe_bits misaligned spare_no_vc plain_frame = Some (def', o', r) ∧
    outputs_ok o' ∧ vc_out o' = None.
Proof.
  apply (X_call_returns_without_side_channel misaligned spare_no_vc plain_frame).
  - exact misaligned_reachable.
  - unfold outputs_ok, spare_no_vc. cbn [codec2_out proto_out vc_out].
    split; [vm_compute; lia|]. split; [|done].
    intros p [= <-]. vm_compute. lia.
  - reflexivity.
  - vm_compute. lia.
Defined.

(** A call always takes 96 bits: with fewer than 96 in [bits_in] it
    reads past the end of the array, whatever the state of the
    deframer. *)
Theorem X_short_batch_is_read_past_its_end def o bits_in :
  reachable def → (length bits_in < 96)%nat →
  fvhff_deframe_bits def o bits_in = None.
Proof.
  intros Hr Hlen. apply reachable_inv in Hr.
  destruct Hr as ((Hty & Hfs & _) & _).
  unfold fvhff_deframe_bits, for_range. rewrite Hty, Z.eqb_refl, Hfs.
  rewrite (for_loop_fails _ _ _ _ (Z.of_nat (length bits_in))); [done|lia|].
  intros t. unfold deframe_bit.
  rewrite (proj2 (rd_None bits_in (Z.of_nat (length bits_in)))) by lia. done.
Qed.

Lemma X_short_batch_is_read_past_its_end_witness :
  fvhff_deframe_bits cold spare (replicate 95 0) = None.
Proof.
  apply X_short_batch_is_read_past_its_end.
  - exact cold_reachable.
  - vm_compute. lia.
Defined.

(** A call takes no more than 96 bits: two batches that agree on their
    first 96 bits have the same effect, whatever follows in the
    arrays. *)
Theorem X_bits_after_the_96th_are_ignored def o bits_in bits_in' :
  reachable def → take 96 bits_in = take 96 bits_in' →
  fvhff_deframe_bits def o bits_in = fvhff_deframe_bits def o bits_in'.
Proof.
  intros Hr Heq. apply reachable_inv in Hr.
  destruct Hr as ((Hty & Hfs & _) & _).
  unfold fvhff_deframe_bits, for_range. rewrite Hty, Z.eqb_refl, Hfs.
  rewrite (for_loop_ext _ (deframe_bit 96 2 1 2 bits_in')); [done|].
  intros j t Hj. unfold deframe_bit.
  rewrite (rd_take_eq bits_in bits_in' 96 j) by (done || lia). done.
Qed.

Lemma X_bits_after_the_96th_are_ignored_witness :
  fvhff_deframe_bits cold spare (uw_at 40 ++ [1; 1]) =
  fvhff_deframe_bits cold spare (uw_at 40).
Proof.
  apply X_bits_after_the_96th_are_ignored.
  - exact cold_reachable.
  - reflexivity.
Defined.

(** ** The matcher and the extractor on their own *)

Lemma uw_errors_range ring c n : 0 <= uw_errors ring c n <= Z.of_nat n.
Proof.
  induction n as [|n IH]; [done|]. rewrite uw_errors_S.
  destruct (_ =? _); lia.
Qed.

Lemma uw_errors_zero ring c n :
  uw_errors ring c n = 0 ↔
  ∀ j, 0 <= j < Z.of_nat n → ring_bit ring c (40 + j) = getz A_uw j.
Proof.
  induction n as [|n IH].
  - split; [intros _ j ?; lia|done].
  - rewrite uw_errors_S. pose proof (uw_errors_range ring c n). split.
    + intros H' j Hj.
      destruct (Z.eqb_spec (ring_bit ring c (40 + Z.of_nat n))
                  (getz A_uw (Z.of_nat n))) as [E|E]; [|lia].
      destruct (decide (j = Z.of_nat n)) as [->|]; [done|]. apply IH; lia.
    + intros H'. rewrite (proj2 IH) by (intros; apply H'; lia).
      rewrite H' by lia. by rewrite Z.eqb_refl.
Qed.

Lemma packed_range src m n : 0 <= packed src m n < 256.
Proof.
  induction n as [|n IH]; [done|]. rewrite packed_S.
  destruct (_ =? _); [|done]. unfold u8. zmod.
Qed.

(** With tolerance 0 the matcher answers 1 exactly when the 16 ring
    cells from offset 40 after the cursor, taken round the end of the
    ring, hold the UW. *)
Theorem X_zero_tolerance_is_exact_match def :
  ring_ok def →
  fvhff_match_uw def 0 = Some 1 ↔
  ∀ j, 0 <= j < 16 →
       rd (bits def) ((bitptr def + 40 + j) mod 96) = rd A_uw j.
Proof.
  intros Hok. rewrite match_uw_spec by done.
  destruct Hok as (_ & _ & Hlen & Hbp).
  pose proof (uw_errors_range (bits def) (bitptr def) 16) as Hrange.
  pose proof (uw_errors_zero (bits def) (bitptr def) 16) as Hzero.
  change (Z.of_nat 16) with 16 in *.
  assert (∀ j, 0 <= j < 16 →
    (rd (bits def) ((bitptr def + 40 + j) mod 96) = rd A_uw j ↔
     ring_bit (bits def) (bitptr def) (40 + j) = getz A_uw j)) as Hcell.
  { intros j Hj. rewrite (rd_getz (bits def)) by (rewrite Hlen; zmod).
    rewrite (rd_getz A_uw) by (simpl; lia). unfold ring_bit.
    replace (bitptr def + (40 + j)) with (bitptr def + 40 + j) by lia.
    split; [by intros [= ->]|by intros ->]. }
  split.
  - destruct (Z.leb_spec (uw_errors (bits def) (bitptr def) 16) 0); [|done].
    intros _ j Hj. apply Hcell; [done|]. apply Hzero; [lia|done].
  - intros Hall. rewrite (proj2 Hzero); [done|].
    intros j Hj. apply Hcell; [done|]. by apply Hall.
Qed.

Lemma X_zero_tolerance_is_exact_match_witness :
  fvhff_match_uw locked 0 = Some 1 ↔
  ∀ j, 0 <= j < 16 →
       rd (bits locked) ((bitptr locked + 40 + j) mod 96) = rd A_uw j.
Proof.
  apply (X_zero_tolerance_is_exact_match locked).
  unfold ring_ok. simpl. repeat split; lia.
Defined.

(** The matcher never matches under a negative tolerance, always
    matches under a tolerance of 16 or more, and what it accepts under
    one tolerance it accepts under any larger one; on a ring of 96
    cells with the cursor inside, it reads within the ring wherever
    the cursor is. *)
Theorem X_matcher_tolerance def tol tol' :
  ring_ok def → tol <= tol' →
  is_Some (fvhff_match_uw def tol) ∧
  (tol < 0 → fvhff_match_uw def tol = Some 0) ∧
  (16 <= tol → fvhff_match_uw def tol = Some 1) ∧
  (fvhff_match_uw def tol = Some 1 → fvhff_match_uw def tol' = Some 1).
Proof.
  intros Hok Htol. rewrite !match_uw_spec by done.
  pose proof (uw_errors_range (bits def) (bitptr def) 16) as Hrange.
  change (Z.of_nat 16) with 16 in Hrange.
  split; [done|]. repeat split; intros H'; revert H'; case_cmp; done.
Qed.

Lemma X_matcher_tolerance_witness :
  is_Some (fvhff_match_uw locked 1) ∧
  (1 < 0 → fvhff_match_uw locked 1 = Some 0) ∧
  (16 <= 1 → fvhff_match_uw locked 1 = Some 1) ∧
  (fvhff_match_uw locked 1 = Some 1 → fvhff_match_uw locked 2 = Some 1).
Proof.
  apply (X_matcher_tolerance locked 1 2); [|lia].
  unfold ring_ok. simpl. repeat split; lia.
Defined.

Lemma extract_needs def o o' :
  ftype def = FREEDV_VHF_FRAME_A →
  fvhff_extract_frame def o = Some o' → outputs_ok o.
Proof.
  intros Hty. unfold fvhff_extract_frame. rewrite Hty, Z.eqb_refl.
  destruct (memset (codec2_out o) 0 7) as [c0|] eqn:Hc0; [|done]. simpl.
  destruct (for_range 0 24 _ _) as [[c1 i1]|] eqn:Hc1; [|done]. simpl.
  destruct (for_range 24 52 _ _) as [[c2 i2]|] eqn:Hc2; [|done]. simpl.
  destruct (match vc_out o with Some _ => _ | None => _ end) as [vc'|] eqn:Hvc;
    [|done].
  simpl.
  destruct (match proto_out o with Some _ => _ | None => _ end) as [p'|] eqn:Hp;
    [|done].
  intros _. split; [by apply memset_Some in Hc0 as [? _]|]. split.
  - intros p Hpo. rewrite Hpo in Hp.
    destruct (memset p 0 3) as [p0|] eqn:Hp0; [|done].
    by apply memset_Some in Hp0 as [? _].
  - intros v Hvo. rewrite Hvo in Hvc. revert Hvc.
    set (i := ring_start (bitptr def) 90 (frame_size def)).
    destruct (rd (bits def) i) as [x|]; cbn [mbind option_bind]; [|done].
    destruct (wr v 0 x) as [v1|] eqn:Hw0; cbn [mbind option_bind]; [|done].
    destruct (rd (bits def) (i + 1)) as [y|]; cbn [mbind option_bind]; [|done].
    destruct (wr v1 1 y) as [v2|] eqn:Hw1; cbn [mbind option_bind]; [|done].
    intros _.
    apply wr_Some in Hw0 as [_ ->]. apply wr_Some in Hw1 as [Hw1 _].
    rewrite length_insert in Hw1. lia.
Qed.

(** What the extractor needs, exactly: on a ring of 96 cells all its
    accesses are within bounds if and only if [codec2_out] has at
    least 7 bytes, [proto_out] and [vc_out], where given, at least 3
    and 2, and the cursor is not at 5 when a side-channel destination
    is given -- there the second side-channel bit is read past the end
    of the ring. *)
Theorem X_extraction_in_bounds_but_at_cursor_5 def o :
  ring_ok def →
  is_Some (fvhff_extract_frame def o) ↔
  outputs_ok o ∧ (vc_out o = None ∨ bitptr def ≠ 5).
Proof.
  intros Hok. split.
  - intros [o' H']. assert (outputs_ok o) as Ho
      by (eapply extract_needs; [apply Hok|done]).
    split; [done|].
    destruct (vc_out o) as [vc|] eqn:Evc; [|by left].
    right. intros H5. rewrite extract_fault in H'; done.
  - intros [Ho H']. rewrite extract_spec by done. done.
Qed.

Lemma X_extraction_in_bounds_but_at_cursor_5_witness :
  is_Some (fvhff_extract_frame locked spare) ↔
  outputs_ok spare ∧ (vc_out spare = None ∨ bitptr locked ≠ 5).
Proof.
  apply (X_extraction_in_bounds_but_at_cursor_5 locked spare).
  unfold ring_ok. simpl. repeat split; lia.
Defined.

(** Frame effect of the extractor: it writes bytes 0..6 of
    [codec2_out], bytes 0..2 of [proto_out] and bytes 0..1 of [vc_out]
    and nothing else; what lies beyond in the arrays is kept, an absent
    array stays absent, and the packed bytes are within 0..255. *)
Theorem X_extraction_frame_effect def o o' :
  ring_ok def → outputs_ok o →
  fvhff_extract_frame def o = Some o' →
  (length (codec2_out o') = length (codec2_out o) ∧
   (∀ i, 7 <= i → rd (codec2_out o') i = rd (codec2_out o) i) ∧
   (∀ i, 0 <= i < 7 → 0 <= getz (codec2_out o') i < 256)) ∧
  match proto_out o with
  | Some p => ∃ p', proto_out o' = Some p' ∧ length p' = length p ∧
                    (∀ i, 3 <= i → rd p' i = rd p i) ∧
                    (∀ i, 0 <= i < 3 → 0 <= getz p' i < 256)
  | None => proto_out o' = None
  end ∧
  match vc_out o with
  | Some v => ∃ v', vc_out o' = Some v' ∧ length v' = length v ∧
                    (∀ i, 2 <= i → rd v' i = rd v i)
  | None => vc_out o' = None
  end.
Proof.
  intros Hok Ho Hex.
  assert (vc_out o = None ∨ bitptr def ≠ 5) as Hvc.
  { destruct (vc_out o) as [vc|] eqn:Evc; [|by left].
    right. intros H5. rewrite extract_fault in Hex; done. }
  rewrite extract_spec in Hex by done. injection Hex as <-.
  destruct Ho as (Hc & Hp & Hv).
  unfold extracted. cbn [codec2_out proto_out vc_out].
  split; [split; [by apply length_overwrite|split]|split].
  - intros i Hi. rewrite rd_overwrite by done. case_cmp; done.
  - intros i Hi. unfold getz. rewrite rd_overwrite by done.
    replace ((0 <=? i) && (i <? Z.of_nat 7)) with true
      by (symmetry; change (Z.of_nat 7) with 7; case_cmp; done).
    apply packed_range.
  - destruct (proto_out o) as [p|]; [|done]. specialize (Hp p eq_refl).
    eexists. split; [done|]. split; [by apply length_overwrite|]. split.
    + intros i Hi. rewrite rd_overwrite by done. case_cmp; done.
    + intros i Hi. unfold getz. rewrite rd_overwrite by done.
      replace ((0 <=? i) && (i <? Z.of_nat 3)) with true
        by (symmetry; change (Z.of_nat 3) with 3; case_cmp; done).
      apply packed_range.
  - destruct (vc_out o) as [v|]; [|done]. specialize (Hv v eq_refl).
    eexists. split; [done|]. split; [by apply length_overwrite|].
    intros i Hi. rewrite rd_overwrite by done. case_cmp; done.
Qed.

Lemma X_extraction_frame_effect_witness :
  ∃ o', fvhff_extract_frame locked spare = Some o' ∧
        length (codec2_out o') = length (codec2_out spare).
Proof.
  exists (extracted (uw_at 40) 0 spare). split; [vm_compute; reflexivity|].
  apply (X_extraction_frame_effect locked spare (extracted (uw_at 40) 0 spare)).
  - unfold ring_ok. simpl. repeat split; lia.
  - unfold outputs_ok. simpl. repeat split; try lia; intros ? [= <-]; simpl; lia.
  - vm_compute. reflexivity.
Defined.

Lemma spare_ok : outputs_ok spare.
Proof.
  unfold outputs_ok, spare. cbn [codec2_out proto_out vc_out].
  split; [vm_compute; lia|]. split; intros ? [= <-]; vm_compute; lia.
Qed.

Lemma overwrite_drop n f a a' :
  drop n a = drop n a' → overwrite n f a = overwrite n f a'.
Proof. intros H. unfold overwrite. by rewrite H. Qed.

(** The extractor clears before it packs, so what the written bytes
    held before plays no role: two sets of output arrays that differ
    only in bytes 0..6 of [codec2_out], 0..2 of [proto_out] and 0..1 of
    [vc_out] come out of an extraction from the same ring as the same
    arrays (or both make the extractor read outside the ring). *)
Theorem X_extraction_overwrites def o1 o2 :
  ring_ok def → outputs_ok o1 → outputs_ok o2 →
  drop 7 (codec2_out o1) = drop 7 (codec2_out o2) →
  drop 3 <$> proto_out o1 = drop 3 <$> proto_out o2 →
  drop 2 <$> vc_out o1 = drop 2 <$> vc_out o2 →
  fvhff_extract_frame def o1 = fvhff_extract_frame def o2.
Proof.
  intros Hok Ho1 Ho2 Hc Hp Hv.
  assert (extracted (bits def) (bitptr def) o1 =
          extracted (bits def) (bitptr def) o2) as Hsame.
  { unfold extracted. f_equal.
    - by apply overwrite_drop.
    - destruct (proto_out o1) as [p1|], (proto_out o2) as [p2|]; try done.
      simpl in *. f_equal. apply overwrite_drop. congruence.
    - destruct (vc_out o1) as [v1|], (vc_out o2) as [v2|]; try done.
      simpl in *. f_equal. apply overwrite_drop. congruence. }
  destruct (decide (bitptr def = 5)) as [H5|H5].
  - destruct (vc_out o1) as [v1|] eqn:E1, (vc_out o2) as [v2|] eqn:E2;
      try done.
    + rewrite !extract_fault; done.
    + rewrite !extract_spec by (done || by left). by rewrite Hsame.
  - rewrite !extract_spec by (done || by right). by rewrite Hsame.
Qed.

Lemma X_extraction_overwrites_witness :
  fvhff_extract_frame (with_ring locked plain_frame 0) spare =
  fvhff_extract_frame (with_ring locked plain_frame 0)
    {| codec2_out := replicate 7 255; proto_out := Some (replicate 3 255);
       vc_out := Some (replicate 2 255) |}.
Proof.
  apply (X_extraction_overwrites (with_ring locked plain_frame 0) spare).
  - split; [reflexivity|]. split; [reflexivity|].
    split; [vm_compute; reflexivity|]. cbn [bitptr with_ring]. lia.
  - exact spare_ok.
  - unfold outputs_ok. cbn [codec2_out proto_out vc_out].
    split; [vm_compute; lia|]. split; intros ? [= <-]; vm_compute; lia.
  - reflexivity.
  - reflexivity.
  - reflexivity.
Defined.

(** ** The framer on its own *)

Lemma bit_of_bit bytes k : bit_of bytes k = 0 ∨ bit_of bytes k = 1.
Proof.
  unfold bit_of, UNPACK_BIT_MSBFIRST.
  destruct (rd bytes _) as [b|]; simpl; [|by left].
  set (x := Z.shiftr b _).
  assert (Z.land x 1 = x mod 2) as ->.
  { change 1 with (Z.ones 1). by rewrite Z.land_ones by lia. }
  zmod.
Qed.

Lemma blank_bit x : 0 <= x < 96 → getz A_blank x = 0 ∨ getz A_blank x = 1.
Proof.
  intros Hx.
  assert (forallb (λ n, (getz A_blank (Z.of_nat n) =? 0) ||
                        (getz A_blank (Z.of_nat n) =? 1)) (seq 0 96) = true)
    as Hall by (vm_compute; reflexivity).
  apply (below_forallb _ _ (Z.to_nat x)) in Hall; [|lia].
  cbv beta in Hall. rewrite Z2Nat.id in Hall by lia.
  apply orb_true_iff in Hall as [?%Z.eqb_eq|?%Z.eqb_eq]; auto.
Qed.

Lemma blank_uw j : 0 <= j < 16 → getz A_blank (40 + j) = getz A_uw j.
Proof.
  intros Hj.
  assert (forallb (λ n, getz A_blank (40 + Z.of_nat n) =? getz A_uw (Z.of_nat n))
            (seq 0 16) = true) as Hall by (vm_compute; reflexivity).
  apply (below_forallb _ _ (Z.to_nat j)) in Hall; [|lia].
  cbv beta in Hall. rewrite Z2Nat.id in Hall by lia. by apply Z.eqb_eq.
Qed.

Lemma frame_bit_uw c p v j :
  0 <= j < 16 → frame_bit c p v (40 + j) = getz A_uw j.
Proof.
  intros Hj. rewrite <- blank_uw by done. unfold frame_bit.
  destruct p, v; case_cmp; done.
Qed.

Lemma rd_lookup a b i :
  length a = length b → rd a (Z.of_nat i) = rd b (Z.of_nat i) → a !! i = b !! i.
Proof.
  intros Hl. unfold rd. rewrite Hl, Nat2Z.id.
  destruct (decide (i < length b)%nat).
  - replace ((0 <=? Z.of_nat i) && (Z.of_nat i <? Z.of_nat (length b)))
      with true by (symmetry; apply andb_true_iff; lia). done.
  - intros _. rewrite !lookup_ge_None_2 by lia. done.
Qed.

(** Every cell of a frame is 0 or 1, whatever bytes the payload and the
    protocol field are made of; the one exception is the side-channel
    pair, which is copied as given when no protocol field overrides
    it. *)
Theorem X_frame_cells_are_bits bo c p v f x :
  frame_args_ok bo c p v →
  fvhff_frame_bits FREEDV_VHF_FRAME_A bo c p v = Some f →
  0 <= x < 96 →
  (∀ vc, p = None → v = Some vc → 90 <= x < 92 →
         getz vc (x - 90) = 0 ∨ getz vc (x - 90) = 1) →
  rd f x = Some 0 ∨ rd f x = Some 1.
Proof.
  intros Hok Hf Hx Hside. rewrite (frame_rd _ _ _ _ _ _ Hok Hf Hx).
  assert (frame_bit c p v x = 0 ∨ frame_bit c p v x = 1) as [-> | ->]; auto.
  unfold frame_bit.
  destruct p as [p|], v as [v|]; case_cmp;
    first [apply bit_of_bit | apply blank_bit; lia | apply Hside; (done || lia)].
Qed.

Lemma X_frame_cells_are_bits_witness :
  rd plain_frame 90 = Some 0 ∨ rd plain_frame 90 = Some 1.
Proof.
  apply (X_frame_cells_are_bits zeros96 plain_payload (Some plain_proto)
           (Some [0; 1]) plain_frame 90).
  - repeat split; simpl; try lia; intros ? [= <-]; simpl; lia.
  - vm_compute. reflexivity.
  - lia.
  - intros vc [=].
Defined.

(** The framer needs no cleared buffer: the 96 bits of the frame do
    not depend on what [bits_out] held, and what lies beyond the 96th
    cell of [bits_out] is kept. *)
Theorem X_frame_does_not_depend_on_the_buffer bo bo' c p v f f' :
  frame_args_ok bo c p v → frame_args_ok bo' c p v →
  fvhff_frame_bits FREEDV_VHF_FRAME_A bo c p v = Some f →
  fvhff_frame_bits FREEDV_VHF_FRAME_A bo' c p v = Some f' →
  take 96 f = take 96 f' ∧ drop 96 f = drop 96 bo.
Proof.
  intros Hok Hok' Hf Hf'. split.
  - apply list_eq. intros i. destruct (decide (i < 96)%nat) as [Hi|Hi].
    + rewrite !lookup_take_lt by done.
      pose proof (frame_rd _ _ _ _ _ (Z.of_nat i) Hok Hf ltac:(lia)) as H1.
      pose proof (frame_rd _ _ _ _ _ (Z.of_nat i) Hok' Hf' ltac:(lia)) as H2.
      apply rd_Some in H1 as [_ H1]. apply rd_Some in H2 as [_ H2].
      rewrite Nat2Z.id in H1, H2. congruence.
    + rewrite !lookup_take_ge by lia. done.
  - destruct (frame_bits_spec _ _ _ _ Hok) as (f0 & Hf0 & Hlen & Hrd).
    rewrite Hf in Hf0. injection Hf0 as <-.
    apply list_eq. intros i. rewrite !lookup_drop.
    apply rd_lookup; [done|]. rewrite Hrd. case_cmp; done.
Qed.

Lemma X_frame_does_not_depend_on_the_buffer_witness :
  take 96 plain_frame = take 96 plain_frame ∧ drop 96 plain_frame = drop 96 zeros96.
Proof.
  apply (X_frame_does_not_depend_on_the_buffer zeros96 (replicate 96 1)
           plain_payload (Some plain_proto) (Some [0; 1])).
  - repeat split; simpl; try lia; intros ? [= <-]; simpl; lia.
  - repeat split; simpl; try lia; intros ? [= <-]; simpl; lia.
  - vm_compute. reflexivity.
  - vm_compute. reflexivity.
Defined.

(** Framer and matcher agree on where the UW is: a frame built by
    [fvhff_frame_bits], held by the ring from the cursor on and round
    its end, passes [fvhff_match_uw] with tolerance 0, whatever the
    payload, the protocol field, the side channel and the cursor. *)
Theorem X_matcher_accepts_every_frame bo c p v f def :
  frame_args_ok bo c p v →
  fvhff_frame_bits FREEDV_VHF_FRAME_A bo c p v = Some f →
  ring_ok def →
  (∀ x, 0 <= x < 96 → rd (bits def) ((bitptr def + x) mod 96) = rd f x) →
  fvhff_match_uw def 0 = Some 1.
Proof.
  intros Hok Hf Hring Hrot. rewrite match_uw_spec by done.
  rewrite (proj2 (uw_errors_zero (bits def) (bitptr def) 16)); [done|].
  change (Z.of_nat 16) with 16. intros j Hj. unfold ring_bit, getz.
  rewrite Hrot, (frame_rd _ _ _ _ _ _ Hok Hf) by lia. simpl.
  by apply frame_bit_uw.
Qed.

Lemma X_matcher_accepts_every_frame_witness :
  fvhff_match_uw
    {| ftype := FREEDV_VHF_FRAME_A; state := ST_SYNC; bits := straddled;
       bitptr := 56; miss_cnt := 0; last_uw := 0; frame_size := 96 |} 0
  = Some 1.
Proof.
  apply (X_matcher_accepts_every_frame zeros96 plain_payload (Some plain_proto)
           (Some [0; 1]) plain_frame).
  - repeat split; simpl; try lia; intros ? [= <-]; simpl; lia.
  - vm_compute. reflexivity.
  - split; [reflexivity|]. split; [reflexivity|].
    split; [vm_compute; reflexivity|]. cbn [bitptr]. lia.
  - intros x Hx. cbn [bits bitptr].
    assert (forallb (λ n, bool_decide
              (rd straddled ((56 + Z.of_nat n) mod 96) =
               rd plain_frame (Z.of_nat n))) (seq 0 96) = true) as Hall
      by (vm_compute; reflexivity).
    apply (below_forallb _ _ (Z.to_nat x)) in Hall; [|lia].
    cbv beta in Hall. rewrite Z2Nat.id in Hall by lia.
    by apply bool_decide_eq_true in Hall.
Defined.

(** ** A Synchronized deframer on a stream *)

Lemma for_loop_split {St} (body : Z → St → option St) n m i s :
  (m ≤ n)%nat →
  for_loop n i body s =
  for_loop m i body s ≫= for_loop (n - m) (i + Z.of_nat m) body.
Proof. intros. rewrite <- for_loop_add. f_equal. lia. Qed.

Lemma getz_default a i : 0 <= i → getz a i = default 0 (a !! Z.to_nat i).
Proof.
  intros Hi. unfold getz, rd. case_cmp; [done|].
  by rewrite lookup_ge_None_2 by lia.
Qed.

(** The ring after [k] bits of a batch, read from the cursor on, is the
    end of the ring before followed by those [k] bits. *)
Lemma ring_bit_rotated ring0 b k x :
  length ring0 = 96%nat → (k ≤ 96)%nat → (k ≤ length b)%nat → 0 <= x < 96 →
  ring_bit (ring_after ring0 b k) (Z.of_nat k mod 96) x =
  ring_bit (drop k ring0 ++ take k b) 0 x.
Proof.
  intros Hr Hk Hb Hx. unfold ring_bit, ring_after.
  rewrite Zplus_mod_idemp_l, Z.add_0_l, (Z.mod_small x) by lia.
  rewrite !getz_default by zmod. f_equal.
  destruct (Z.lt_ge_cases (Z.of_nat k + x) 96).
  - replace (Z.to_nat ((Z.of_nat k + x) mod 96)) with (k + Z.to_nat x)%nat
      by (rewrite Z.mod_small by lia; lia).
    rewrite lookup_app_r by (rewrite length_take; lia).
    rewrite lookup_app_l by (rewrite length_drop; lia).
    rewrite length_take. f_equal. lia.
  - replace (Z.to_nat ((Z.of_nat k + x) mod 96))
      with (Z.to_nat x - (96 - k))%nat by zmod.
    rewrite lookup_app_l by (rewrite length_take; lia).
    rewrite lookup_app_r by (rewrite length_drop; lia).
    rewrite length_drop. f_equal. lia.
Qed.

Lemma overwrite_ext n f g a :
  (∀ m, 0 <= m < Z.of_nat n → f m = g m) → overwrite n f a = overwrite n g a.
Proof.
  intros H. unfold overwrite. f_equal. apply map_ext_in.
  intros m Hm%list_elem_of_In%elem_of_seqZ. apply H. lia.
Qed.

Lemma uw_errors_ext r c r' c' n :
  (∀ j, 0 <= j < Z.of_nat n → ring_bit r c (40 + j) = ring_bit r' c' (40 + j)) →
  uw_errors r c n = uw_errors r' c' n.
Proof.
  induction n as [|n IH]; intros H; [done|].
  rewrite !uw_errors_S, IH, H by (intros; try apply H; lia). done.
Qed.

Lemma extracted_rotated r c r' c' o :
  (∀ x, 0 <= x < 96 → ring_bit r c x = ring_bit r' c' x) →
  extracted r c o = extracted r' c' o.
Proof.
  intros H. unfold extracted. f_equal.
  - apply overwrite_ext. intros m _. apply packed_ext. intros k Hk.
    apply H. unfold payload_off. change (Z.of_nat 52) with 52 in Hk.
    case_cmp; lia.
  - destruct (proto_out o) as [p|]; [|done]. simpl. f_equal.
    apply overwrite_ext. intros m _. apply packed_ext. intros k Hk.
    apply H. unfold proto_off. change (Z.of_nat 20) with 20 in Hk.
    case_cmp; lia.
  - destruct (vc_out o) as [v|]; [|done]. simpl. f_equal.
    apply overwrite_ext. intros m Hm. apply H.
    change (Z.of_nat 2) with 2 in Hm. lia.
Qed.

(** After an extraction on bit [k] that leaves the deframer
    Synchronized, the rest of the batch is stored and counted. *)
Lemma counting_run def bits_in k miss out :
  length (bits def) = 96%nat → (k ≤ 95)%nat → (96 ≤ length bits_in)%nat →
  for_loop (96 - S k) (0 + Z.of_nat (S k)) (deframe_bit 96 2 1 2 bits_in)
    (counting def bits_in k miss out O)
  = Some (counting def bits_in k miss out (96 - S k)).
Proof.
  intros Hring Hk Hlen.
  apply (for_loop_trace (counting def bits_in k miss out)). intros n Hn.
  replace (0 + Z.of_nat (S k) + Z.of_nat n) with (Z.of_nat (n + S k)) by lia.
  apply deframe_bit_cases.
  exists (getz bits_in (Z.of_nat (n + S k))),
         (ring_after (bits def) bits_in (S (n + S k))).
  split; [apply rd_getz; lia|].
  assert (Z.of_nat (n + S k) mod 96 = Z.of_nat (n + S k)) as Hsmall
    by (apply Z.mod_small; lia).
  split; [unfold counting; proj; rewrite Hsmall; apply ring_after_step; lia|].
  cbv zeta. right; left. unfold sync_wait, counting. proj.
  split; [done|]. split; [lia|].
  rewrite Hsmall, next_bitptr_mod by lia.
  replace (Z.of_nat (n + S k) + 1) with (Z.of_nat (S n + S k)) by lia.
  replace (Z.of_nat n + 1) with (Z.of_nat (S n)) by lia.
  reflexivity.
Qed.

(** A call in which the first [k] bits are stored without an
    extraction, bit [k] brings one that leaves the deframer
    Synchronized, and the rest is counted. *)
Lemma extraction_on_bit def o bits_in k miss out :
  deframer_ok def → (k ≤ 95)%nat → (96 ≤ length bits_in)%nat →
  deframe_loop k def o bits_in = Some (waiting def o bits_in k) →
  deframe_bit 96 2 1 2 bits_in (Z.of_nat k) (waiting def o bits_in k)
    = Some (counting def bits_in k miss out O) →
  fvhff_deframe_bits def o bits_in =
  Some ({| ftype := FREEDV_VHF_FRAME_A; state := ST_SYNC;
           bits := take 96 bits_in; bitptr := 0; miss_cnt := miss;
           last_uw := 95 - Z.of_nat k; frame_size := 96 |}, out, 1).
Proof.
  intros Hok Hk Hlen Hq Hcheck. assert (Hok' := Hok).
  destruct Hok' as ((Hty & Hfs & Hring & _) & _).
  unfold fvhff_deframe_bits, for_range. rewrite Hty, Z.eqb_refl, Hfs.
  change (Z.to_nat (96 - 0)) with 96%nat.
  rewrite (for_loop_split _ 96 (S k)) by lia. rewrite for_loop_snoc.
  unfold deframe_loop in Hq. rewrite Hfs in Hq. rewrite Hq.
  cbn [mbind option_bind]. change (0 + Z.of_nat k) with (Z.of_nat k).
  rewrite Hcheck. cbn [mbind option_bind].
  rewrite counting_run by done.
  cbn [mbind option_bind]. unfold counting. proj.
  replace (96 - S k + S k)%nat with 96%nat by lia.
  rewrite Hty.
  replace (ring_after (bits def) bits_in 96) with (take 96 bits_in)
    by (unfold ring_after; by rewrite drop_ge, app_nil_r by lia).
  replace (Z.of_nat (96 - S k)) with (95 - Z.of_nat k) by lia.
  reflexivity.
Qed.

(** The struct on which the matcher and the extractor run once bit [k]
    of the batch is stored. *)
Lemma bit_stored def o bits_in k :
  deframer_ok def → (k ≤ 95)%nat → (96 ≤ length bits_in)%nat →
  let ring := ring_after (bits def) bits_in (S k) in
  let cur := Z.of_nat (S k) mod 96 in
  rd bits_in (Z.of_nat k) = Some (getz bits_in (Z.of_nat k)) ∧
  wr (bits (l_def (waiting def o bits_in k))) (l_bitptr (waiting def o bits_in k))
     (getz bits_in (Z.of_nat k)) = Some ring ∧
  with_ring (l_def (waiting def o bits_in k)) ring
    (next_bitptr (l_bitptr (waiting def o bits_in k)) 96)
  = with_ring def ring cur ∧
  ring_ok (with_ring def ring cur).
Proof.
  intros Hok Hk Hlen ring cur.
  destruct Hok as ((Hty & Hfs & Hring & Hbp) & _).
  split; [apply rd_getz; lia|].
  split; [proj; apply ring_after_step; lia|].
  split.
  - proj. rewrite next_bitptr_mod by lia. unfold cur. do 2 f_equal. lia.
  - apply with_ring_ok; [done|apply length_ring_after; lia|]. unfold cur. zmod.
Qed.

(** A call on a Synchronized deframer whose check of the UW falls on
    bit [k] of the batch and keeps the lock. *)
Lemma sync_stream_call def o bits_in k miss :
  deframer_ok def → state def = ST_SYNC → (k ≤ 95)%nat →
  last_uw def = 95 - Z.of_nat k →
  outputs_ok o → (96 ≤ length bits_in)%nat →
  vc_out o = None ∨ k ≠ 4%nat →
  miss = (if uw_errors (ring_after (bits def) bits_in (S k))
               (Z.of_nat (S k) mod 96) 16 <=? 1
          then 0 else miss_cnt def + 1) →
  miss <= 2 →
  fvhff_deframe_bits def o bits_in =
  Some ({| ftype := FREEDV_VHF_FRAME_A; state := ST_SYNC;
           bits := take 96 bits_in; bitptr := 0; miss_cnt := miss;
           last_uw := last_uw def; frame_size := 96 |},
        extracted (ring_after (bits def) bits_in (S k))
          (Z.of_nat (S k) mod 96) o, 1).
Proof.
  intros Hok Hs Hk Hlu Ho Hlen Hvc -> Hm2.
  destruct (bit_stored def o bits_in k Hok Hk Hlen) as (Hrd & Hwr & Hdef & Hd).
  set (ring := ring_after (bits def) bits_in (S k)) in *.
  set (cur := Z.of_nat (S k) mod 96) in *.
  rewrite Hlu. apply extraction_on_bit; try done.
  - apply quiet_run; try done; try lia.
    intros Hn. pose proof sync_states_differ. congruence.
  - apply deframe_bit_cases.
    exists (getz bits_in (Z.of_nat k)), ring.
    split; [done|]. split; [done|].
    cbv zeta. left. unfold sync_check. rewrite Hdef.
    proj. rewrite Hs, Z.eqb_refl.
    split; [done|]. split; [lia|].
    exists (if uw_errors ring cur 16 <=? 1 then 1 else 0), (extracted ring cur o).
    split; [by rewrite (match_uw_spec _ 1 Hd)|].
    split.
    { rewrite (extract_spec _ o Hd Ho); [done|].
      destruct Hvc as [?|Hvc]; [by left|right]. proj. unfold cur. zmod. }
    unfold counting. revert Hm2.
    destruct (uw_errors ring cur 16 <=? 1); intros Hm2.
    + reflexivity.
    + change (0 =? 0) with true. cbv iota. rewrite Z.gtb_ltb.
      destruct (Z.ltb_spec 2 (miss_cnt def + 1)); [lia|]. reflexivity.
Qed.

(** A call on an Unsynchronized deframer that finds the UW, within 2
    bit errors, once bit [k] of the batch is stored and not before. *)
Lemma lock_stream_call def o bits_in k :
  deframer_ok def → state def = ST_NOSYNC → (k ≤ 95)%nat →
  outputs_ok o → (96 ≤ length bits_in)%nat →
  vc_out o = None ∨ k ≠ 4%nat →
  uw_absent_upto (bits def) bits_in k = true →
  uw_errors (ring_after (bits def) bits_in (S k)) (Z.of_nat (S k) mod 96) 16
    <= 2 →
  fvhff_deframe_bits def o bits_in =
  Some ({| ftype := FREEDV_VHF_FRAME_A; state := ST_SYNC;
           bits := take 96 bits_in; bitptr := 0; miss_cnt := 0;
           last_uw := 95 - Z.of_nat k; frame_size := 96 |},
        extracted (ring_after (bits def) bits_in (S k))
          (Z.of_nat (S k) mod 96) o, 1).
Proof.
  intros Hok Hs Hk Ho Hlen Hvc Habs Huw.
  destruct (bit_stored def o bits_in k Hok Hk Hlen) as (Hrd & Hwr & Hdef & Hd).
  set (ring := ring_after (bits def) bits_in (S k)) in *.
  set (cur := Z.of_nat (S k) mod 96) in *.
  apply extraction_on_bit; try done.
  - apply quiet_run; try done; try lia.
    + intros Hn. pose proof sync_states_differ. congruence.
    + intros _ j Hj.
      apply (uw_absent_upto_spec (bits def) bits_in k); try done; try lia.
      apply (proj1 Hok).
  - apply deframe_bit_cases.
    exists (getz bits_in (Z.of_nat k)), ring.
    split; [done|]. split; [done|].
    cbv zeta. right; right; left. unfold nosync_hit. rewrite Hdef.
    proj. rewrite Hs.
    split; [apply sync_states_differ|].
    exists 1, (extracted ring cur o).
    split.
    { rewrite (match_uw_spec _ 2 Hd). proj.
      destruct (Z.leb_spec (uw_errors ring cur 16) 2); [done|lia]. }
    split; [done|]. split; [|reflexivity].
    rewrite (extract_spec _ o Hd Ho); [done|].
    destruct Hvc as [?|Hvc]; [by left|right]. proj. unfold cur. zmod.
Qed.

(** The same call, in terms of the 96 bits that the check looks at. *)
Lemma sync_frame_call def o bits_in miss :
  deframer_ok def → state def = ST_SYNC →
  outputs_ok o → (96 ≤ length bits_in)%nat →
  vc_out o = None ∨ last_uw def ≠ 91 →
  miss = (if uw_errors (frame_at_check def bits_in) 0 16 <=? 1
          then 0 else miss_cnt def + 1) →
  miss <= 2 →
  fvhff_deframe_bits def o bits_in =
  Some ({| ftype := FREEDV_VHF_FRAME_A; state := ST_SYNC;
           bits := take 96 bits_in; bitptr := 0; miss_cnt := miss;
           last_uw := last_uw def; frame_size := 96 |},
        extracted (frame_at_check def bits_in) 0 o, 1).
Proof.
  intros Hok Hs Ho Hlen Hvc Hmiss Hm2. assert (Hok' := Hok).
  destruct Hok' as ((Hty & _ & Hring & _) & _ & Hlu & _).
  pose (k := Z.to_nat (95 - last_uw def)).
  assert (bits_to_check def = S k) as Hbk by (unfold bits_to_check, k; lia).
  assert (∀ x, 0 <= x < 96 →
    ring_bit (ring_after (bits def) bits_in (S k)) (Z.of_nat (S k) mod 96) x =
    ring_bit (frame_at_check def bits_in) 0 x) as Hrot.
  { intros x Hx. unfold frame_at_check. rewrite Hbk.
    apply ring_bit_rotated; lia. }
  rewrite (sync_stream_call def o bits_in k miss); try done; try lia.
  - by rewrite (extracted_rotated _ _ (frame_at_check def bits_in) 0 o Hrot).
  - destruct Hvc as [?|?]; [by left|right; lia].
  - rewrite Hmiss,
      (uw_errors_ext (ring_after (bits def) bits_in (S k))
         (Z.of_nat (S k) mod 96) (frame_at_check def bits_in) 0); [done|].
    intros j Hj. apply Hrot. change (Z.of_nat 16) with 16 in Hj. lia.
Qed.

Lemma frame_uw_errors bo c p v f :
  frame_args_ok bo c p v →
  fvhff_frame_bits FREEDV_VHF_FRAME_A bo c p v = Some f →
  uw_errors f 0 16 = 0.
Proof.
  intros Hok Hf. apply uw_errors_zero. change (Z.of_nat 16) with 16.
  intros j Hj. rewrite (getz_frame _ _ _ _ _ _ Hok Hf) by lia.
  by apply frame_bit_uw.
Qed.


(** A Synchronized deframer on a stream, whatever the alignment of the
    frames with the batches: a call checks the UW once, when the
    countdown ends, on the 96 bits made of the end of the batch before
    and the beginning of this one; it delivers the fields of those 96
    bits, counts a miss if more than one UW bit differs and clears the
    count if not, and keeps the countdown for the next call -- as long
    as the count stays within the two misses allowed. *)
Theorem X_synchronized_call_on_a_stream def o bits_in :
  reachable def → state def = ST_SYNC →
  outputs_ok o → (96 ≤ length bits_in)%nat →
  vc_out o = None ∨ last_uw def ≠ 91 →
  (if uw_errors (frame_at_check def bits_in) 0 16 <=? 1
   then 0 else miss_cnt def + 1) <= 2 →
  fvhff_deframe_bits def o bits_in =
  Some ({| ftype := FREEDV_VHF_FRAME_A; state := ST_SYNC;
           bits := take 96 bits_in; bitptr := 0;
           miss_cnt := if uw_errors (frame_at_check def bits_in) 0 16 <=? 1
                       then 0 else miss_cnt def + 1;
           last_uw := last_uw def; frame_size := 96 |},
        extracted (frame_at_check def bits_in) 0 o, 1).
Proof.
  intros Hr Hs Ho Hlen Hvc Hmiss. apply reachable_inv in Hr.
  by apply sync_frame_call.
Qed.

Lemma midway_reachable : reachable midway.
Proof.
  apply (reach_deframe cold spare straddled midway
           {| codec2_out := [0; 0; 0; 3; 4; 5; 96];
              proto_out := Some [0; 4; 80]; vc_out := Some [0; 1] |} 1);
    [apply cold_reachable|vm_compute; reflexivity].
Qed.

Lemma X_synchronized_call_on_a_stream_witness :
  fvhff_deframe_bits midway spare straddled =
  Some ({| ftype := FREEDV_VHF_FRAME_A; state := ST_SYNC;
           bits := take 96 straddled; bitptr := 0;
           miss_cnt := if uw_errors (frame_at_check midway straddled) 0 16 <=? 1
                       then 0 else miss_cnt midway + 1;
           last_uw := last_uw midway; frame_size := 96 |},
        extracted (frame_at_check midway straddled) 0 spare, 1).
Proof.
  apply (X_synchronized_call_on_a_stream midway spare straddled).
  - exact midway_reachable.
  - reflexivity.
  - exact spare_ok.
  - vm_compute. lia.
  - right. vm_compute. lia.
  - vm_compute. discriminate.
Defined.

(** Round trip on a stream: when the 96 bits that a Synchronized
    deframer checks are a frame built by [fvhff_frame_bits], however
    they are split between the batch before and this one, the call
    delivers the payload and the protocol field that the frame was
    built from, clears the miss count and keeps the lock and the
    countdown.  Nothing is asked of the content of the payload; what
    is asked is that the check does not fall on cursor 5 (a countdown
    of 91 at entry) when a side-channel destination is given, where
    the extractor reads outside the ring. *)
Theorem X_round_trip_on_a_stream bo c p v def o bits_in :
  length bo = 96%nat → payload52 c → proto20 p →
  (∀ vc, v = Some vc → (2 ≤ length vc)%nat) →
  fvhff_frame_bits FREEDV_VHF_FRAME_A bo c (Some p) v =
    Some (frame_at_check def bits_in) →
  reachable def → state def = ST_SYNC →
  outputs_ok o → (96 ≤ length bits_in)%nat →
  vc_out o = None ∨ last_uw def ≠ 91 →
  ∃ def' o',
    fvhff_deframe_bits def o bits_in = Some (def', o', 1) ∧
    fvhff_synchronized def' = 1 ∧ miss_cnt def' = 0 ∧
    last_uw def' = last_uw def ∧
    take 7 (codec2_out o') = c ∧
    (∀ po, proto_out o = Some po →
           ∃ po', proto_out o' = Some po' ∧ take 3 po' = p).
Proof.
  intros Hbo Hc Hp Hv Hf Hr Hs Ho Hlen Hvc. apply reachable_inv in Hr.
  assert (frame_args_ok bo c (Some p) v) as Hargs.
  { destruct Hc as (Hc & _), Hp as (Hp & _).
    repeat split; try lia; [intros ? [= <-]; lia|done]. }
  pose proof (frame_uw_errors _ _ _ _ _ Hargs Hf) as Huw.
  rewrite (sync_frame_call def o bits_in 0 Hr Hs Ho Hlen Hvc);
    [|by rewrite Huw|lia].
  eexists _, _. split; [done|]. split; [done|]. split; [done|].
  split; [done|]. split.
  - unfold extracted. cbn [codec2_out]. rewrite (take_overwrite 7).
    etrans; [|apply (payload_packed c Hc)].
    apply map_ext_in. intros m _. apply packed_ext. intros k Hk.
    apply (frame_payload _ _ _ _ _ _ Hargs Hf). lia.
  - intros po Hpo. unfold extracted. cbn [proto_out]. rewrite Hpo.
    eexists. split; [done|]. rewrite (take_overwrite 3).
    etrans; [|apply (proto_packed p Hp)].
    apply map_ext_in. intros m _. apply packed_ext. intros k Hk.
    apply (frame_proto _ _ _ _ _ _ Hargs Hf). lia.
Qed.

Lemma X_round_trip_on_a_stream_witness :
  ∃ def' o',
    fvhff_deframe_bits midway spare straddled = Some (def', o', 1) ∧
    fvhff_synchronized def' = 1 ∧ miss_cnt def' = 0 ∧
    last_uw def' = last_uw midway ∧
    take 7 (codec2_out o') = plain_payload ∧
    (∀ po, proto_out spare = Some po →
           ∃ po', proto_out o' = Some po' ∧ take 3 po' = plain_proto).
Proof.
  apply (X_round_trip_on_a_stream zeros96 plain_payload plain_proto
           (Some [0; 1]) midway spare straddled).
  - reflexivity.
  - split; [reflexivity|]. split; [repeat constructor; lia|reflexivity].
  - split; [reflexivity|]. split; [repeat constructor; lia|reflexivity].
  - intros vc [= <-]. simpl. lia.
  - vm_compute. reflexivity.
  - exact midway_reachable.
  - reflexivity.
  - exact spare_ok.
  - vm_compute. lia.
  - right. vm_compute. lia.
Defined.

(** ** Flipping UW bits leaves the fields alone *)





Lemma used_ok : outputs_ok used.
Proof.
  unfold outputs_ok, used. cbn [codec2_out proto_out vc_out].
  split; [vm_compute; lia|]. split; intros ? [= <-]; vm_compute; lia.
Qed.



(** ** What the framer needs from its arguments *)

Lemma blank_loop_needs bo f :
  for_range 0 96 (λ i bo, a ← rd A_blank i; wr bo i a) bo = Some f →
  (96 ≤ length bo)%nat.
Proof.
  unfold for_range. change (Z.to_nat (96 - 0)) with 96%nat.
  rewrite for_loop_snoc.
  destruct (for_loop 95 _ _ _) as [t|] eqn:E; [|done].
  apply (for_loop_inv (λ _ b, length b = length bo)) in E; [|done|].
  - cbn [mbind option_bind]. change (0 + Z.of_nat 95) with 95.
    destruct (rd A_blank 95) as [a|]; [|done]. cbn [mbind option_bind].
    intros [Hw _]%wr_Some. lia.
  - intros j b b' _ Hb. destruct (rd A_blank j) as [a|]; [|done].
    cbn [mbind option_bind]. intros [_ ->]%wr_Some. by rewrite length_insert.
Qed.

Lemma place_loop_needs src lo hi bo ibit0 f ib :
  lo < hi →
  for_range lo hi (place_bit src) (bo, ibit0) = Some (f, ib) →
  ib = ibit0 + (hi - lo) ∧
  Z.shiftr (ibit0 + (hi - lo) - 1) 3 < Z.of_nat (length src).
Proof.
  intros Hlo. unfold for_range.
  replace (Z.to_nat (hi - lo)) with (S (Z.to_nat (hi - lo - 1))) by lia.
  rewrite for_loop_snoc.
  destruct (for_loop _ _ _ _) as [[t i]|] eqn:E; [|done].
  apply (for_loop_inv (λ j s, snd s = ibit0 + (j - lo))) in E.
  - cbn [snd] in E. cbn [mbind option_bind]. unfold place_bit.
    destruct (UNPACK_BIT_MSBFIRST src i) as [b|] eqn:Hb; [|done].
    cbn [mbind option_bind].
    destruct (wr t _ _) as [t'|]; [|done]. cbn [mbind option_bind].
    intros [= _ <-]. split; [lia|].
    unfold UNPACK_BIT_MSBFIRST in Hb.
    destruct (rd src (Z.shiftr i 3)) as [x|] eqn:Hx; [|done].
    apply rd_Some in Hx as [Hx _].
    replace (ibit0 + (hi - lo) - 1) with i by lia. lia.
  - cbn [snd]. lia.
  - intros j [s1 i1] [s2 i2] _ Hs. cbn [snd] in *. unfold place_bit.
    destruct (UNPACK_BIT_MSBFIRST src i1) as [b|]; [|done].
    cbn [mbind option_bind].
    destruct (wr s1 _ _) as [t'|]; [|done]. cbn [mbind option_bind].
    intros [= _ <-]. lia.
Qed.

(** What the framer needs, exactly: all its accesses are within bounds
    if and only if [bits_out] has at least 96 cells, [codec2_in] at
    least 7 bytes, and [proto_in] and [vc_in], where given, at least 3
    and 2; with any array shorter it reads or writes past the end. *)
Theorem X_framer_in_bounds bo c p v :
  is_Some (fvhff_frame_bits FREEDV_VHF_FRAME_A bo c p v) ↔
  frame_args_ok bo c p v.
Proof.
  split.
  - intros [f Hf]. unfold fvhff_frame_bits in Hf. rewrite Z.eqb_refl in Hf.
    destruct (for_range 0 96 _ bo) as [f1|] eqn:E1; [|done].
    cbn [mbind option_bind] in Hf.
    destruct (match v with Some _ => _ | None => _ end) as [f2|] eqn:E2;
      [|done].
    cbn [mbind option_bind] in Hf.
    destruct (match p with Some _ => _ | None => _ end) as [f3|] eqn:E3;
      [|done].
    cbn [mbind option_bind] in Hf.
    destruct (for_range 16 40 _ _) as [[g1 i1]|] eqn:E4; [|done].
    cbn [mbind option_bind] in Hf.
    destruct (for_range 56 84 _ _) as [[g2 i2]|] eqn:E5; [|done].
    apply place_loop_needs in E4 as [-> _]; [|lia].
    apply place_loop_needs in E5 as [_ E5]; [|lia].
    change (Z.shiftr (0 + (40 - 16) + (84 - 56) - 1) 3) with 6 in E5.
    split; [by apply blank_loop_needs in E1|]. split; [lia|]. split.
    + intros proto ->.
      destruct (for_range 4 16 _ _) as [[h1 j1]|] eqn:E6; [|done].
      cbn [mbind option_bind] in E3.
      destruct (for_range 84 92 _ _) as [[h2 j2]|] eqn:E7; [|done].
      apply place_loop_needs in E6 as [-> _]; [|lia].
      apply place_loop_needs in E7 as [_ E7]; [|lia].
      change (Z.shiftr (0 + (16 - 4) + (92 - 84) - 1) 3) with 2 in E7. lia.
    + intros vc ->.
      destruct (rd vc 0) as [v0|]; [|done]. cbn [mbind option_bind] in E2.
      destruct (wr f1 90 v0) as [f1'|]; [|done]. cbn [mbind option_bind] in E2.
      destruct (rd vc 1) as [v1|] eqn:Hv1; [|done].
      apply rd_Some in Hv1 as [Hv1 _]. lia.
  - intros Hok. destruct (frame_bits_spec _ _ _ _ Hok) as (f & -> & _). done.
Qed.

(** ** Taking the lock anywhere in a batch *)

(** An Unsynchronized deframer takes the lock on the first bit of the
    batch that completes 96 bits with the UW in place, within 2 bit
    errors: bit [k] if the matcher saw no UW on the bits before.  The
    call then delivers the fields of those 96 bits -- the end of the
    ring as it was and the first [k + 1] bits of the batch -- and sets
    the countdown so that the next check falls [k + 1] bits into the
    next batch, on the next frame.  This holds for every [k] from 0 to
    95 when no side-channel destination is given, and for every [k]
    but 4 when one is: a lock on bit 4 puts the cursor at 5, where the
    extractor reads outside the ring. *)
Theorem X_lock_anywhere_in_a_batch def o bits_in k :
  reachable def → state def = ST_NOSYNC → (k ≤ 95)%nat →
  outputs_ok o → (96 ≤ length bits_in)%nat →
  vc_out o = None ∨ k ≠ 4%nat →
  uw_absent_upto (bits def) bits_in k = true →
  uw_errors (drop (S k) (bits def) ++ take (S k) bits_in) 0 16 <= 2 →
  ∃ def',
    fvhff_deframe_bits def o bits_in =
      Some (def', extracted (drop (S k) (bits def) ++ take (S k) bits_in) 0 o, 1) ∧
    fvhff_synchronized def' = 1 ∧ miss_cnt def' = 0 ∧
    bits def' = take 96 bits_in ∧ bits_to_check def' = S k.
Proof.
  intros Hr Hs Hk Ho Hlen Hvc Habs Huw. apply reachable_inv in Hr.
  assert (length (bits def) = 96%nat) as Hring by apply Hr.
  assert (∀ x, 0 <= x < 96 →
    ring_bit (ring_after (bits def) bits_in (S k)) (Z.of_nat (S k) mod 96) x =
    ring_bit (drop (S k) (bits def) ++ take (S k) bits_in) 0 x) as Hrot
    by (intros x Hx; apply ring_bit_rotated; lia).
  rewrite (lock_stream_call def o bits_in k); try done.
  - rewrite (extracted_rotated _ _ _ 0 o Hrot).
    eexists. split; [done|]. unfold bits_to_check. proj.
    repeat split; try done. lia.
  - rewrite (uw_errors_ext _ _ (drop (S k) (bits def) ++ take (S k) bits_in) 0);
      [done|].
    intros j Hj. apply Hrot. change (Z.of_nat 16) with 16 in Hj. lia.
Qed.

Lemma X_lock_anywhere_in_a_batch_witness :
  ∃ def',
    fvhff_deframe_bits cold spare straddled =
      Some (def', extracted (drop 56 (bits cold) ++ take 56 straddled) 0 spare, 1) ∧
    fvhff_synchronized def' = 1 ∧ miss_cnt def' = 0 ∧
    bits def' = take 96 straddled ∧ bits_to_check def' = 56%nat.
Proof.
  apply (X_lock_anywhere_in_a_batch cold spare straddled 55).
  - exact cold_reachable.
  - reflexivity.
  - lia.
  - exact spare_ok.
  - vm_compute. lia.
  - right. lia.
  - vm_compute. reflexivity.
  - vm_compute. discriminate.
Defined.

(** ** The first lock on a batch *)







(** * The claims on the deframer *)

(** ** C8: cursor and countdown *)

Lemma rd_ring_after ring0 bits_in n i :
  length ring0 = 96%nat → (n ≤ 96)%nat → (n ≤ length bits_in)%nat →
  0 <= i < Z.of_nat n →
  rd (ring_after ring0 bits_in n) i = rd bits_in i.
Proof.
  intros Hr Hn Hl Hi. unfold rd.
  rewrite length_ring_after by done. unfold ring_after.
  rewrite lookup_app_l by (rewrite length_take; lia).
  rewrite lookup_take_lt by lia.
  change (Z.of_nat 96) with 96. case_cmp; done.
Qed.

(** During a call the ring holds the bits taken so far, from cell 0. *)
Lemma deframe_loop_ring n def o bits_in l :
  deframer_ok def → (n ≤ 96)%nat →
  deframe_loop n def o bits_in = Some l →
  (n ≤ length bits_in)%nat ∧
  bits (l_def l) = ring_after (bits def) bits_in n.
Proof.
  intros Hok Hn Hrun. assert (Hok' := Hok).
  destruct Hok' as ((Hty & Hfs & Hring & _) & Hb0 & _).
  unfold deframe_loop in Hrun. rewrite Hfs in Hrun.
  apply (for_loop_inv (λ j l,
    0 <= j <= 96 ∧ l_bitptr l = j mod 96 ∧ j <= Z.of_nat (length bits_in) ∧
    bits (l_def l) = ring_after (bits def) bits_in (Z.to_nat j))) in Hrun.
  - destruct Hrun as (_ & _ & Hlen & Hbits).
    rewrite Z.add_0_l, Nat2Z.id in Hbits. split; [lia|done].
  - cbn [deframe_entry l_bitptr l_def]. unfold ring_after.
    rewrite drop_0. repeat split; try lia. by rewrite Hb0.
  - intros j t t' Hj (Hj' & Hcur & Hlen & Hbits) Hstep.
    apply deframe_bit_cases in Hstep.
    destruct Hstep as (b & ring & Hb & Hw & H'). cbv zeta in H'.
    assert (j < Z.of_nat (length bits_in)) as Hjlen
      by (apply rd_Some in Hb; lia).
    assert (ring = ring_after (bits def) bits_in (S (Z.to_nat j))) as ->.
    { rewrite Hcur, Z.mod_small, Hbits in Hw by lia.
      apply rd_Some in Hb as [_ Hb].
      assert (getz bits_in j = b) as <-.
      { unfold getz, rd. rewrite Hb. case_cmp; done. }
      pose proof (ring_after_step (bits def) bits_in (Z.to_nat j) Hring
                    ltac:(lia) ltac:(lia)) as Hstep'.
      rewrite Z2Nat.id in Hstep' by lia. congruence. }
    replace (Z.to_nat (j + 1)) with (S (Z.to_nat j)) by lia.
    assert (next_bitptr (l_bitptr t) 96 = (j + 1) mod 96) as Hnext.
    { rewrite Hcur. unfold next_bitptr. case_cmp; zmod. }
    destruct H' as [(_ & _ & m & out & _ & _ & ->)
                   |[(_ & _ & ->)
                   |[(_ & m & out & _ & _ & _ & ->)
                   |(_ & _ & ->)]]]; proj;
      (split; [lia|]); (split; [done|]); (split; [lia|done]).
Qed.

(** C8. State-range invariant: on every deframer made by
    [fvhff_create_deframer] and taken through any sequence of calls of
    [fvhff_deframe_bits], the stored cursor [bitptr] and the stored
    countdown [last_uw] lie in [0, frame_size).  During a call the
    cursor after [n] input bits is the cursor at entry advanced by [n]
    modulo [frame_size], the local copy and the stored one agreeing,
    and each of the bits taken so far sits in the cell that the cursor
    pointed to when it came in.  A call that returns has run the loop
    over 96 bits: the struct it leaves is the one the loop ends on,
    its cursor is the cursor at entry advanced by 96 modulo
    [frame_size], cursor and countdown are in range again, and input
    bit [i] is in the cell [i] places after the cursor at entry. *)
Theorem C8_state_range_invariant def :
  reachable def →
  (0 <= bitptr def < frame_size def ∧ 0 <= last_uw def < frame_size def) ∧
  (∀ o bits_in n l,
     deframe_loop n def o bits_in = Some l →
     bitptr (l_def l) = (bitptr def + Z.of_nat n) mod frame_size def ∧
     l_bitptr l = bitptr (l_def l) ∧
     0 <= l_last_uw l < frame_size def ∧
     ((n ≤ 96)%nat →
      ∀ i, 0 <= i < Z.of_nat n →
           rd (bits (l_def l)) ((bitptr def + i) mod frame_size def)
           = rd bits_in i)) ∧
  (∀ o bits_in def' o' r,
     fvhff_deframe_bits def o bits_in = Some (def', o', r) →
     (∃ l, deframe_loop 96 def o bits_in = Some l ∧
           def' = deframe_exit l ∧ o' = l_out l ∧ r = l_extracted_frame l) ∧
     bitptr def' = (bitptr def + 96) mod frame_size def ∧
     (0 <= bitptr def' < frame_size def' ∧
      0 <= last_uw def' < frame_size def') ∧
     (∀ i, 0 <= i < 96 →
           rd (bits def') ((bitptr def + i) mod frame_size def)
           = rd bits_in i)).
Proof.
  intros Hr. apply reachable_inv in Hr. assert (Hok := Hr).
  destruct Hr as ((Hty & Hfs & Hlen & Hbp) & Hb0 & Hlu & _).
  rewrite Hfs, Hb0. split; [lia|]. split.
  - intros o bits_in n l Hrun.
    destruct (deframe_loop_ok _ _ _ _ _ Hok Hrun)
      as ((_ & Hptr & Hlu' & _) & Hcur).
    split; [rewrite Hcur; f_equal; lia|]. split; [done|]. split; [lia|].
    intros Hn i Hi.
    destruct (deframe_loop_ring _ _ _ _ _ Hok Hn Hrun) as [Hl ->].
    rewrite Z.add_0_l, Z.mod_small by lia. by apply rd_ring_after.
  - intros o bits_in def' o' r Hcall.
    pose proof (deframe_bits_ok _ _ _ _ _ _ Hok Hcall)
      as ((_ & Hfs' & _ & Hbp') & _ & Hlu' & _).
    rewrite Hfs'.
    unfold fvhff_deframe_bits, for_range in Hcall.
    rewrite Hty, Z.eqb_refl, Hfs in Hcall.
    change (Z.to_nat (96 - 0)) with 96%nat in Hcall.
    destruct (for_loop 96 0 _ _) as [l|] eqn:Hrun; [|done].
    cbn [mbind option_bind] in Hcall. injection Hcall as <- <- <-.
    assert (deframe_loop 96 def o bits_in = Some l) as Hloop
      by (unfold deframe_loop; by rewrite Hfs).
    destruct (deframe_loop_ok _ _ _ _ _ Hok Hloop) as (_ & Hcur).
    destruct (deframe_loop_ring 96 def o bits_in l Hok ltac:(lia) Hloop)
      as [Hl Hbits].
    split; [exists l; done|]. cbn [bitptr bits]. split; [by rewrite Hcur|].
    split; [done|].
    intros i Hi. rewrite Hbits, Z.add_0_l, Z.mod_small by lia.
    apply rd_ring_after; (done || lia).
Qed.

Lemma C8_witness :
  ∃ l def' o' r,
    deframe_loop 10 midway spare straddled = Some l ∧
    fvhff_deframe_bits midway spare straddled = Some (def', o', r) ∧
    (0 <= bitptr midway < frame_size midway ∧
     0 <= last_uw midway < frame_size midway) ∧
    (bitptr (l_def l) = (bitptr midway + 10) mod frame_size midway ∧
     l_bitptr l = bitptr (l_def l) ∧
     0 <= l_last_uw l < frame_size midway ∧
     ((10 ≤ 96)%nat →
      ∀ i, 0 <= i < 10 →
           rd (bits (l_def l)) ((bitptr midway + i) mod frame_size midway)
           = rd straddled i)) ∧
    ((∃ l', deframe_loop 96 midway spare straddled = Some l' ∧
            def' = deframe_exit l' ∧ o' = l_out l' ∧
            r = l_extracted_frame l') ∧
     bitptr def' = (bitptr midway + 96) mod frame_size midway ∧
     (0 <= bitptr def' < frame_size def' ∧
      0 <= last_uw def' < frame_size def') ∧
     (∀ i, 0 <= i < 96 →
           rd (bits def') ((bitptr midway + i) mod frame_size midway)
           = rd straddled i)).
Proof.
  destruct (C8_state_range_invariant midway midway_reachable)
    as (Hrange & Hloop & Hcall).
  eexists _, _, _, _.
  split; [vm_compute; reflexivity|].
  split; [vm_compute; reflexivity|].
  split; [exact Hrange|]. split.
  - apply (Hloop spare straddled 10%nat). vm_compute. reflexivity.
  - apply (Hcall spare straddled). vm_compute. reflexivity.
Defined.

(** ** C1: round trip on a deframer just created *)




(** ** C3: losing the lock *)

(** C3. Sync hysteresis: a deframer that is Synchronized with no miss
    counted and its countdown at a frame boundary, fed three frames
    whose 16 UW bits are all flipped (the other bits arbitrary),
    extracts and reports each of them -- the output arrays after each
    call hold the fields of that frame, written over what the call
    before left --, is still Synchronized after the first and after the
    second, and is Unsynchronized after the third. *)
Theorem C3_sync_hysteresis def o f1 f2 f3 :
  reachable def → state def = ST_SYNC → miss_cnt def = 0 → last_uw def = 0 →
  outputs_ok o →
  length f1 = 96%nat → uw_field f1 = map flip A_uw →
  length f2 = 96%nat → uw_field f2 = map flip A_uw →
  length f3 = 96%nat → uw_field f3 = map flip A_uw →
  ∃ d1 o1 d2 o2 d3 o3,
    (fvhff_deframe_bits def o f1 = Some (d1, o1, 1) ∧
     fvhff_extract_frame (with_ring def f1 0) o = Some o1 ∧
     o1 = extracted f1 0 o ∧
     state d1 = ST_SYNC) ∧
    (fvhff_deframe_bits d1 o1 f2 = Some (d2, o2, 1) ∧
     fvhff_extract_frame (with_ring d1 f2 0) o1 = Some o2 ∧
     o2 = extracted f2 0 o1 ∧
     state d2 = ST_SYNC) ∧
    (fvhff_deframe_bits d2 o2 f3 = Some (d3, o3, 1) ∧
     fvhff_extract_frame (with_ring d2 f3 0) o2 = Some o3 ∧
     o3 = extracted f3 0 o2 ∧
     state d3 = ST_NOSYNC).
Proof.
  intros Hr Hs Hm Hlu Ho Hf1 Hw1 Hf2 Hw2 Hf3 Hw3.
  apply reachable_inv in Hr.
  destruct (missed_call def o f1 Hr Hs Hlu Ho Hf1 Hw1)
    as (d1 & o1 & Hc1 & He1 & Hx1 & Hok1 & Ho1 & Hlu1 & Hm1 & Hs1).
  rewrite Hm in Hm1, Hs1. change (0 + 1 >? 2) with false in Hs1. cbv iota in Hs1.
  destruct (missed_call d1 o1 f2 Hok1 Hs1 Hlu1 Ho1 Hf2 Hw2)
    as (d2 & o2 & Hc2 & He2 & Hx2 & Hok2 & Ho2 & Hlu2 & Hm2 & Hs2).
  rewrite Hm1 in Hm2, Hs2. change (0 + 1 + 1 >? 2) with false in Hs2.
  cbv iota in Hs2.
  destruct (missed_call d2 o2 f3 Hok2 Hs2 Hlu2 Ho2 Hf3 Hw3)
    as (d3 & o3 & Hc3 & He3 & Hx3 & Hok3 & Ho3 & Hlu3 & Hm3 & Hs3).
  rewrite Hm2 in Hs3. change (0 + 1 + 1 + 1 >? 2) with true in Hs3.
  cbv iota in Hs3.
  exists d1, o1, d2, o2, d3, o3. done.
Qed.

Lemma C3_witness :
  ∃ d1 d2 d3,
    (fvhff_deframe_bits locked used flipped_plain_frame =
       Some (d1, {| codec2_out := plain_payload ++ [255];
                    proto_out := Some (plain_proto ++ [255]);
                    vc_out := Some [0; 1; 255] |}, 1) ∧
     state d1 = ST_SYNC) ∧
    (fvhff_deframe_bits d1
       {| codec2_out := plain_payload ++ [255];
          proto_out := Some (plain_proto ++ [255]);
          vc_out := Some [0; 1; 255] |} flipped_uw_payload_frame =
       Some (d2, {| codec2_out := uw_payload ++ [255];
                    proto_out := Some [0; 0; 0; 255];
                    vc_out := Some [0; 0; 255] |}, 1) ∧
     state d2 = ST_SYNC) ∧
    (fvhff_deframe_bits d2
       {| codec2_out := uw_payload ++ [255];
          proto_out := Some [0; 0; 0; 255];
          vc_out := Some [0; 0; 255] |} flipped_uw_frame =
       Some (d3, {| codec2_out := replicate 7 0 ++ [255];
                    proto_out := Some [0; 0; 0; 255];
                    vc_out := Some [0; 0; 255] |}, 1) ∧
     state d3 = ST_NOSYNC).
Proof.
  destruct (C3_sync_hysteresis locked used
              flipped_plain_frame flipped_uw_payload_frame flipped_uw_frame)
    as (d1 & o1 & d2 & o2 & d3 & o3 &
        (Hc1 & _ & Hx1 & Hs1) & (Hc2 & _ & Hx2 & Hs2) & (Hc3 & _ & Hx3 & Hs3)).
  - apply (reach_deframe cold spare (uw_at 40) locked
             (extracted (uw_at 40) 0 spare) 1).
    + apply (reach_create FREEDV_VHF_FRAME_A zeros96); reflexivity.
    + vm_compute. reflexivity.
  - reflexivity.
  - reflexivity.
  - reflexivity.
  - exact used_ok.
  - vm_compute. reflexivity.
  - vm_compute. reflexivity.
  - vm_compute. reflexivity.
  - vm_compute. reflexivity.
  - reflexivity.
  - reflexivity.
  - subst o1 o2 o3. exists d1, d2, d3.
    split; [split; [exact Hc1|exact Hs1]|].
    split; [split; [exact Hc2|exact Hs2]|split; [exact Hc3|exact Hs3]].
Defined.

(** ** C4: taking the lock *)


